(** * pure_eval: a shallow embedding of the safe evaluator and of getattr_static

    The modelled sources are [pure_eval/utils.py], [pure_eval/my_getattr_static.py]
    and [pure_eval/core.py].  Python values are modelled by [pyval]; objects that
    Python keeps on its heap (classes, instances, functions, the CannotEval class)
    are references [VObj o] into a read-only heap [pyheap].  The AST is the
    Python 3.9+ [ast.expr] family (where [ast.Slice] is itself an expression). *)

From Stdlib Require Import List Bool ZArith String Lia Permutation.
From Stdlib Require Import Floats.SpecFloat Strings.Byte.
Set Warnings "-register-all".
Import ListNotations.
Open Scope Z_scope.
Open Scope string_scope.

(** ** Built-in types and object identities *)

Inductive btype :=
  | TObject | TType | TNoneType | TEllipsisType
  | TBool | TInt | TFloat | TComplex | TStr | TBytes | TBytearray
  | TTuple | TList | TDict | TSet | TFrozenset | TRange | TSlice
  | TMemberDescriptor | TWrapperDescriptor | TMethodDescriptor
  | TGetSetDescriptor | TMethodWrapper | TBuiltinFunction | TFunction.

Definition btype_eqb (a b : btype) : bool :=
  match a, b with
  | TObject, TObject | TType, TType | TNoneType, TNoneType
  | TEllipsisType, TEllipsisType | TBool, TBool | TInt, TInt | TFloat, TFloat
  | TComplex, TComplex | TStr, TStr | TBytes, TBytes | TBytearray, TBytearray
  | TTuple, TTuple | TList, TList | TDict, TDict | TSet, TSet
  | TFrozenset, TFrozenset | TRange, TRange | TSlice, TSlice
  | TMemberDescriptor, TMemberDescriptor | TWrapperDescriptor, TWrapperDescriptor
  | TMethodDescriptor, TMethodDescriptor | TGetSetDescriptor, TGetSetDescriptor
  | TMethodWrapper, TMethodWrapper | TBuiltinFunction, TBuiltinFunction
  | TFunction, TFunction => true
  | _, _ => false
  end.

(** Object identity ([is]): a built-in type object, the [CannotEval] class of
    [pure_eval/utils.py], or any other heap object. *)
Inductive oid :=
  | OB (t : btype)
  | OCannotEval
  | OU (n : nat).

Definition oid_eqb (a b : oid) : bool :=
  match a, b with
  | OB x, OB y => btype_eqb x y
  | OCannotEval, OCannotEval => true
  | OU x, OU y => Nat.eqb x y
  | _, _ => false
  end.

(** The three built-in descriptor shapes whose [__get__] runs no user code,
    plus the getset descriptor used for [__dict__]. *)
Inductive dkind := DMember | DWrapper | DMethod | DGetSet.

(** ** Python values *)

Inductive pyval :=
  | VNone
  | VEllipsis
  | VBool (b : bool)
  | VInt (z : Z)
  | VFloat (f : spec_float)
  | VComplex (re im : spec_float)
  | VStr (s : string)
  | VBytes (bs : list Byte.byte)
  | VBytearray (bs : list Byte.byte)
  | VTuple (xs : list pyval)
  | VList (xs : list pyval)
  | VDict (kvs : list (pyval * pyval))
  | VSet (xs : list pyval)
  | VFrozenset (xs : list pyval)
  | VRange (start stop step : Z)
  | VSlice (start stop step : pyval)
  | VObj (o : oid)
  (** a built-in descriptor object: its kind, [__objclass__] and [__name__] *)
  | VDescr (k : dkind) (objclass : oid) (name : string)
  (** the result of a built-in descriptor's [__get__]: a method-wrapper or a
      bound built-in method *)
  | VBound (k : dkind) (self : pyval) (name : string).

(** The heap: what Python stores for a heap object.  [ob_dict] is the
    instance [__dict__] (for a class: its own namespace), [ob_slots] the
    filled [__slots__] storage, [ob_mro] the [__mro__] of a type object. *)
Record pyobject := mkObj {
  ob_type : oid;
  ob_dict : option (list (string * pyval));
  ob_slots : list (string * pyval);
  ob_mro : option (list oid)
}.

Definition pyheap := oid -> option pyobject.

(** Python exceptions that can leave the modelled functions. *)
Inductive exc :=
  | CannotEval | TypeError | ValueError | AttributeError | KeyError | IndexError | OverflowError.

Inductive outcome (A : Type) := Ok (a : A) | Exc (e : exc).
Arguments Ok {A} a.
Arguments Exc {A} e.

Definition obind {A B} (r : outcome A) (f : A -> outcome B) : outcome B :=
  match r with Ok a => f a | Exc e => Exc e end.

Fixpoint assoc_str {A} (k : string) (l : list (string * A)) : option A :=
  match l with
  | [] => None
  | (k', v) :: l' => if String.eqb k k' then Some v else assoc_str k l'
  end.

Section Heap.
Variable heap : pyheap.

(** [type(x)] *)
Definition type_of (v : pyval) : oid :=
  match v with
  | VNone => OB TNoneType
  | VEllipsis => OB TEllipsisType
  | VBool _ => OB TBool
  | VInt _ => OB TInt
  | VFloat _ => OB TFloat
  | VComplex _ _ => OB TComplex
  | VStr _ => OB TStr
  | VBytes _ => OB TBytes
  | VBytearray _ => OB TBytearray
  | VTuple _ => OB TTuple
  | VList _ => OB TList
  | VDict _ => OB TDict
  | VSet _ => OB TSet
  | VFrozenset _ => OB TFrozenset
  | VRange _ _ _ => OB TRange
  | VSlice _ _ _ => OB TSlice
  | VObj o => match heap o with Some ob => ob_type ob | None => OB TObject end
  | VDescr DMember _ _ => OB TMemberDescriptor
  | VDescr DWrapper _ _ => OB TWrapperDescriptor
  | VDescr DMethod _ _ => OB TMethodDescriptor
  | VDescr DGetSet _ _ => OB TGetSetDescriptor
  | VBound DMethod _ _ => OB TBuiltinFunction
  | VBound _ _ _ => OB TMethodWrapper
  end.

(** [utils.is_any]: identity membership *)
Definition is_any (x : oid) (args : list oid) : bool :=
  existsb (oid_eqb x) args.

(** [utils.of_type] *)
Definition of_type (x : pyval) (types : list oid) : outcome pyval :=
  if is_any (type_of x) types then Ok x else Exc CannotEval.

(** [utils.safe_hash_key] (its [None] result is falsy, modelled as [false]) *)
Fixpoint safe_hash_key (k : pyval) : bool :=
  if is_any (type_of k) [OB TStr; OB TInt; OB TBool; OB TFloat; OB TBytes;
                         OB TType; OB TComplex; OB TRange] then true
  else if is_any (type_of k) [OB TTuple; OB TFrozenset] then
    match k with
    | VTuple xs | VFrozenset xs => forallb safe_hash_key xs
    | _ => false
    end
  else false.


(** ** Python's [==] on hashable built-in values

    Dictionary and set lookups in the modelled code only ever compare values
    that are hashable built-ins (the evaluator checks [safe_hash_key] first, and
    [ast.literal_eval] only builds literals), so [py_eq] follows CPython's
    [__eq__] on numbers, strings, bytes, tuples, frozensets, ranges, [None],
    [Ellipsis], and identity for heap objects (types and objects without a
    custom [__eq__]). *)

Inductive pynum := NInt (z : Z) | NFloat (f : spec_float) | NComplex (re im : spec_float).

Definition as_num (v : pyval) : option pynum :=
  match v with
  | VBool b => Some (NInt (Z.b2z b))
  | VInt z => Some (NInt z)
  | VFloat f => Some (NFloat f)
  | VComplex re im => Some (NComplex re im)
  | _ => None
  end.

(** exact comparison of a float with an integer, as [float_richcompare] does *)
Definition float_eq_int (f : spec_float) (z : Z) : bool :=
  match f with
  | S754_zero _ => Z.eqb z 0
  | S754_finite s m e =>
      let v := if s then Z.neg m else Z.pos m in
      if Z.leb 0 e then Z.eqb z (v * 2 ^ e) else Z.eqb (z * 2 ^ (- e)) v
  | _ => false
  end.

Definition float_zero : spec_float := S754_zero false.

Definition real_eq (r : spec_float) (n : pynum) : bool :=
  match n with
  | NInt z => float_eq_int r z
  | NFloat g => SFeqb r g
  | NComplex _ _ => false
  end.

Definition num_eqb (a b : pynum) : bool :=
  match a, b with
  | NInt x, NInt y => Z.eqb x y
  | NInt x, NFloat f | NFloat f, NInt x => float_eq_int f x
  | NFloat f, NFloat g => SFeqb f g
  | NComplex r i, NComplex r' i' => SFeqb r r' && SFeqb i i'
  | NComplex r i, n | n, NComplex r i => SFeqb i float_zero && real_eq r n
  end.

Fixpoint bytes_eqb (a b : list Byte.byte) : bool :=
  match a, b with
  | [], [] => true
  | x :: a', y :: b' => Byte.eqb x y && bytes_eqb a' b'
  | _, _ => false
  end.

(** [len(range(start, stop, step))] *)
Definition range_len (start stop step : Z) : Z :=
  if Z.ltb 0 step then
    (if Z.ltb start stop then (stop - start - 1) / step + 1 else 0)
  else if Z.ltb step 0 then
    (if Z.ltb stop start then (start - stop - 1) / (- step) + 1 else 0)
  else 0.

(** [range_equals] of CPython's rangeobject.c *)
Definition range_eqb (a0 a1 a2 b0 b1 b2 : Z) : bool :=
  let la := range_len a0 a1 a2 in
  if negb (Z.eqb la (range_len b0 b1 b2)) then false
  else if Z.eqb la 0 then true
  else if negb (Z.eqb a0 b0) then false
  else if Z.eqb la 1 then true
  else Z.eqb a2 b2.

Fixpoint py_eq (a b : pyval) {struct a} : bool :=
  match as_num a, as_num b with
  | Some x, Some y => num_eqb x y
  | _, _ =>
    match a, b with
    | VNone, VNone | VEllipsis, VEllipsis => true
    | VStr s, VStr t => String.eqb s t
    | (VBytes x | VBytearray x), (VBytes y | VBytearray y) => bytes_eqb x y
    | VTuple xs, VTuple ys | VList xs, VList ys =>
        (fix go (xs ys : list pyval) : bool :=
           match xs, ys with
           | [], [] => true
           | x :: xs', y :: ys' => py_eq x y && go xs' ys'
           | _, _ => false
           end) xs ys
    | (VFrozenset xs | VSet xs), (VFrozenset ys | VSet ys) =>
        Nat.eqb (List.length xs) (List.length ys) && forallb (fun x => existsb (py_eq x) ys) xs
    | VRange a0 a1 a2, VRange b0 b1 b2 => range_eqb a0 a1 a2 b0 b1 b2
    | VObj o, VObj o' => oid_eqb o o'
    | _, _ => false
    end
  end.

(** [hash(x)] succeeds *)
Fixpoint hashable (v : pyval) : bool :=
  match v with
  | VList _ | VDict _ | VSet _ | VBytearray _ | VSlice _ _ _ => false
  | VTuple xs | VFrozenset xs => forallb hashable xs
  | _ => true
  end.

(** dictionary and set primitives on the association-list representation *)
Fixpoint dict_lookup (kvs : list (pyval * pyval)) (k : pyval) : option pyval :=
  match kvs with
  | [] => None
  | (k', v) :: kvs' => if py_eq k k' then Some v else dict_lookup kvs' k
  end.

(** [d[k] = v]: an equal key keeps its original key object and gets the new value *)
Fixpoint dict_set (kvs : list (pyval * pyval)) (k v : pyval) : list (pyval * pyval) :=
  match kvs with
  | [] => [(k, v)]
  | (k', v') :: kvs' => if py_eq k k' then (k', v) :: kvs' else (k', v') :: dict_set kvs' k v
  end.

Definition set_add (xs : list pyval) (x : pyval) : list pyval :=
  if existsb (py_eq x) xs then xs else xs ++ [x].

(** [set(xs)] and [dict(zip(ks, vs))], raising [TypeError] on unhashable keys *)
Definition build_set (xs : list pyval) : outcome pyval :=
  if forallb hashable xs then Ok (VSet (fold_left set_add xs [])) else Exc TypeError.

Definition build_dict (kvs : list (pyval * pyval)) : outcome pyval :=
  if forallb (fun kv => hashable (fst kv)) kvs
  then Ok (VDict (fold_left (fun d kv => dict_set d (fst kv) (snd kv)) kvs []))
  else Exc TypeError.

(** [bool(x)] for the built-in types *)
Definition truthy (v : pyval) : bool :=
  match v with
  | VNone => false
  | VBool b => b
  | VInt z => negb (Z.eqb z 0)
  | VFloat f => negb (SFeqb f float_zero)
  | VComplex re im => negb (SFeqb re float_zero && SFeqb im float_zero)
  | VStr s => negb (String.eqb s EmptyString)
  | VBytes bs | VBytearray bs => negb (Nat.eqb (List.length bs) 0)
  | VTuple xs | VList xs | VSet xs | VFrozenset xs => negb (Nat.eqb (List.length xs) 0)
  | VDict kvs => negb (Nat.eqb (List.length kvs) 0)
  | VRange a b c => negb (Z.eqb (range_len a b c) 0)
  | _ => true
  end.

(** ** Sequence indexing and slicing ([list_subscript] and friends) *)

(** an [int] or [bool] used as an index *)
Definition as_index (v : pyval) : option Z :=
  match v with
  | VInt z => Some z
  | VBool b => Some (Z.b2z b)
  | _ => None
  end.

(** the elements of a sequence of length [n] selected by index [i]:
    negative indices count from the end, anything else out of range is [IndexError] *)
Definition norm_index (n i : Z) : option nat :=
  let j := if Z.ltb i 0 then i + n else i in
  if Z.leb 0 j && Z.ltb j n then Some (Z.to_nat j) else None.

Definition byte_val (b : Byte.byte) : pyval := VInt (Z.of_N (Byte.to_N b)).

Definition seq_index (v : pyval) (i : Z) : outcome pyval :=
  match v with
  | VList xs | VTuple xs =>
      match norm_index (Z.of_nat (List.length xs)) i with
      | Some j => match nth_error xs j with Some x => Ok x | None => Exc IndexError end
      | None => Exc IndexError
      end
  | VStr s =>
      match norm_index (Z.of_nat (String.length s)) i with
      | Some j => match String.get j s with
                  | Some c => Ok (VStr (String c EmptyString))
                  | None => Exc IndexError
                  end
      | None => Exc IndexError
      end
  | VBytes bs | VBytearray bs =>
      match norm_index (Z.of_nat (List.length bs)) i with
      | Some j => match nth_error bs j with Some b => Ok (byte_val b) | None => Exc IndexError end
      | None => Exc IndexError
      end
  | _ => Exc TypeError
  end.

(** [PySlice_Unpack] followed by [PySlice_AdjustIndices]: the positions a
    slice selects in a sequence of length [n] *)
Definition slice_positions (n : Z) (start stop step : pyval) : outcome (list Z) :=
  let ostep := match step with VNone => Some 1 | _ => as_index step end in
  match ostep with
  | None => Exc TypeError
  | Some 0 => Exc ValueError
  | Some st =>
    let adjust (x : Z) :=
      if Z.ltb x 0 then (if Z.ltb (x + n) 0 then (if Z.ltb st 0 then -1 else 0) else x + n)
      else if Z.leb n x then (if Z.ltb st 0 then n - 1 else n) else x in
    let ostart := match start with
                  | VNone => Some (if Z.ltb st 0 then n - 1 else 0)
                  | _ => option_map adjust (as_index start) end in
    let ostop := match stop with
                 | VNone => Some (if Z.ltb st 0 then -1 else n)
                 | _ => option_map adjust (as_index stop) end in
    match ostart, ostop with
    | Some a, Some b =>
        let cnt := if Z.ltb st 0
                   then (if Z.ltb b a then (a - b - 1) / (- st) + 1 else 0)
                   else (if Z.ltb a b then (b - a - 1) / st + 1 else 0) in
        Ok (map (fun k => a + Z.of_nat k * st) (seq 0 (Z.to_nat cnt)))
    | _, _ => Exc TypeError
    end
  end.

Definition pick {A} (xs : list A) (ps : list Z) : list A :=
  flat_map (fun p => match nth_error xs (Z.to_nat p) with Some x => [x] | None => [] end) ps.

Definition string_pick (s : string) (ps : list Z) : string :=
  fold_right (fun p acc => match String.get (Z.to_nat p) s with
                           | Some c => String c acc | None => acc end) EmptyString ps.

Definition seq_slice (v start stop step : pyval) : outcome pyval :=
  match v with
  | VList xs => obind (slice_positions (Z.of_nat (List.length xs)) start stop step)
                      (fun ps => Ok (VList (pick xs ps)))
  | VTuple xs => obind (slice_positions (Z.of_nat (List.length xs)) start stop step)
                       (fun ps => Ok (VTuple (pick xs ps)))
  | VStr s => obind (slice_positions (Z.of_nat (String.length s)) start stop step)
                    (fun ps => Ok (VStr (string_pick s ps)))
  | VBytes bs => obind (slice_positions (Z.of_nat (List.length bs)) start stop step)
                       (fun ps => Ok (VBytes (pick bs ps)))
  | VBytearray bs => obind (slice_positions (Z.of_nat (List.length bs)) start stop step)
                           (fun ps => Ok (VBytearray (pick bs ps)))
  | _ => Exc TypeError
  end.

(** [value[index]] on the built-in containers *)
Definition py_subscript (value index : pyval) : outcome pyval :=
  match value with
  | VList _ | VTuple _ | VStr _ | VBytes _ | VBytearray _ =>
      match index with
      | VSlice a b c => seq_slice value a b c
      | _ => match as_index index with Some i => seq_index value i | None => Exc TypeError end
      end
  | VDict kvs =>
      if hashable index then
        match dict_lookup kvs index with Some v => Ok v | None => Exc KeyError end
      else Exc TypeError
  | _ => Exc TypeError
  end.

(** ** [my_getattr_static.py] *)

(** [_static_getmro(klass)]: [type.__dict__['__mro__'].__get__(klass)],
    a [TypeError] for anything that is not a type object *)
Definition static_getmro (klass : pyval) : outcome (list oid) :=
  match klass with
  | VObj o => match heap o with
              | Some ob => match ob_mro ob with Some m => Ok m | None => Exc TypeError end
              | None => Exc TypeError
              end
  | _ => Exc TypeError
  end.

(** a type's own namespace, read through [type.__dict__['__dict__']] *)
Definition class_dict (entry : oid) : list (string * pyval) :=
  match heap entry with
  | Some ob => match ob_dict ob with Some d => d | None => [] end
  | None => []
  end.

(** [_is_type] *)
Definition is_type (obj : pyval) : bool :=
  match static_getmro obj with Ok _ => true | Exc _ => false end.

(** [_shadowed_dict]: [None] stands for [_sentinel] *)
Definition shadowed_dict (klass : oid) : outcome (option pyval) :=
  obind (static_getmro (VObj klass)) (fun mro =>
  Ok ((fix go (mro : list oid) : option pyval :=
         match mro with
         | [] => None
         | entry :: rest =>
             match assoc_str "__dict__" (class_dict entry) with
             | None => go rest
             | Some (VDescr DGetSet owner "__dict__") =>
                 if oid_eqb owner entry then go rest else Some (VDescr DGetSet owner "__dict__")
             | Some class_dict_attr => Some class_dict_attr
             end
         end) mro)).

(** [object.__getattribute__(obj, "__dict__")], reached only when [__dict__]
    is not shadowed ([dict_attr] is the sentinel) or is a slot *)
Definition instance_dict (obj : pyval) (dict_attr : option pyval) : outcome pyval :=
  match obj, dict_attr with
  | VObj o, None =>
      match heap o with
      | Some ob => match ob_dict ob with
                   | Some d => Ok (VDict (map (fun kv => (VStr (fst kv), snd kv)) d))
                   | None => Exc AttributeError
                   end
      | None => Exc AttributeError
      end
  | VObj o, Some _ =>
      match heap o with
      | Some ob => match assoc_str "__dict__" (ob_slots ob) with
                   | Some d => Ok d
                   | None => Exc AttributeError
                   end
      | None => Exc AttributeError
      end
  | _, _ => Exc AttributeError
  end.

(** [_check_instance]: the [AttributeError] is caught and [{}] used instead;
    [dict.get] on something that is not a dict raises [TypeError] *)
Definition check_instance (obj : pyval) (dict_attr : option pyval) (attr : string)
  : outcome (option pyval) :=
  let d := match instance_dict obj dict_attr with
           | Ok d => Ok d
           | Exc AttributeError => Ok (VDict [])
           | Exc e => Exc e
           end in
  obind d (fun d => match d with
                    | VDict kvs => Ok (dict_lookup kvs (VStr attr))
                    | _ => Exc TypeError
                    end).

(** [_check_class] *)
Definition check_class (klass : oid) (attr : string) : outcome (option pyval) :=
  obind (static_getmro (VObj klass)) (fun mro =>
  (fix go (mro : list oid) : outcome (option pyval) :=
     match mro with
     | [] => Ok None
     | entry :: rest =>
         obind (shadowed_dict (type_of (VObj entry))) (fun sd =>
         match sd with
         | None => match assoc_str attr (class_dict entry) with
                   | Some v => Ok (Some v)
                   | None => go rest
                   end
         | Some _ => go rest
         end)
     end) mro).

(** [isinstance(obj, cls)] through the static MRO of [type(obj)] *)
Definition isinstance (obj : pyval) (cls : oid) : bool :=
  match static_getmro (VObj (type_of obj)) with
  | Ok mro => existsb (oid_eqb cls) mro
  | Exc _ => false
  end.

(** [d.__get__(obj)] for the built-in descriptor kinds ([wrap_descr_get] turns
    [None] into NULL and rejects [__get__(None, None)]; [descr_check] rejects
    an [obj] that is not an instance of [__objclass__]; an empty slot raises
    [AttributeError]). *)
Definition builtin_descr_get (d obj : pyval) : outcome pyval :=
  match obj with
  | VNone => Exc TypeError
  | _ =>
    match d with
    | VDescr DMember c n =>
        if isinstance obj c then
          match obj with
          | VObj o => match heap o with
                      | Some ob => match assoc_str n (ob_slots ob) with
                                   | Some v => Ok v
                                   | None => Exc AttributeError
                                   end
                      | None => Exc AttributeError
                      end
          | _ => Exc AttributeError
          end
        else Exc TypeError
    | VDescr DWrapper c n => if isinstance obj c then Ok (VBound DWrapper obj n) else Exc TypeError
    | VDescr DMethod c n => if isinstance obj c then Ok (VBound DMethod obj n) else Exc TypeError
    | _ => Exc TypeError
    end
  end.

(** [slot_descriptor], [wrapper_descriptor], [method_descriptor] *)
Definition safe_descriptor_types : list oid :=
  [OB TMemberDescriptor; OB TWrapperDescriptor; OB TMethodDescriptor].

(** [_resolve_descriptor] *)
Definition resolve_descriptor (d obj : pyval) : outcome pyval :=
  obind (of_type d safe_descriptor_types) (fun d => builtin_descr_get d obj).

Definition obj_oid (v : pyval) : oid :=
  match v with VObj o => o | _ => OB TObject end.

(** the metaclass walk at the end of [getattr_static]: raw dictionary entries *)
Definition check_metaclass (klass : oid) (attr : string) : outcome pyval :=
  obind (static_getmro (VObj (type_of (VObj klass)))) (fun mro =>
  (fix go (mro : list oid) : outcome pyval :=
     match mro with
     | [] => Exc CannotEval
     | entry :: rest =>
         obind (shadowed_dict (type_of (VObj entry))) (fun sd =>
         match sd with
         | None => match assoc_str attr (class_dict entry) with
                   | Some v => Ok v
                   | None => go rest
                   end
         | Some _ => go rest
         end)
     end) mro).

(** [klass] of [getattr_static] *)
Definition getattr_klass (obj : pyval) : oid :=
  if is_type obj then obj_oid obj else type_of obj.

(** [instance_result] of [getattr_static] *)
Definition getattr_instance_result (obj : pyval) (attr : string) : outcome (option pyval) :=
  if is_type obj then Ok None
  else obind (shadowed_dict (getattr_klass obj)) (fun dict_attr =>
         match dict_attr with
         | None => check_instance obj None attr
         | Some da =>
             if oid_eqb (type_of da) (OB TMemberDescriptor)
             then check_instance obj (Some da) attr else Ok None
         end).

(** [getattr_static(obj, attr)] *)
Definition getattr_static (obj : pyval) (attr : string) : outcome pyval :=
  let klass := getattr_klass obj in
  let instance_result := getattr_instance_result obj attr in
  obind instance_result (fun instance_result =>
  obind (check_class klass attr) (fun klass_result =>
  let rest :=
    match instance_result with
    | Some ir => Ok ir
    | None =>
      match klass_result with
      | Some kr =>
          obind (check_class (type_of kr) "__get__") (fun get =>
          match get with
          | None => Ok kr
          | Some _ => resolve_descriptor kr obj
          end)
      | None =>
          match obj with
          | VObj o => if oid_eqb o klass then check_metaclass klass attr else Exc CannotEval
          | _ => Exc CannotEval
          end
      end
    end in
  match instance_result, klass_result with
  | Some _, Some kr =>
      obind (check_class (type_of kr) "__get__") (fun get =>
      match get with
      | None => rest
      | Some _ =>
          obind (check_class (type_of kr) "__set__") (fun set =>
          match set with
          | None => rest
          | Some _ => resolve_descriptor kr obj
          end)
      end)
  | _, _ => rest
  end)).

End Heap.

(** ** The expression AST ([ast.expr], Python 3.9+)

    Every node carries its identity [e_id] (the evaluator caches by node
    object, i.e. by identity) and its source position.  Expression kinds the
    evaluator does not dispatch on (comparisons, lambdas, comprehensions, ...)
    are [OtherExpr], kept with their child expressions for [ast.walk]. *)

Inductive expr_context := Load | Store | Del.
Inductive unaryop := UAdd | USub | Not | Invert.
Inductive binop :=
  | Add | Sub | Mult | MatMult | Div | Mod | Pow | LShift | RShift
  | BitOr | BitXor | BitAnd | FloorDiv.
Inductive boolop := And | Or.

Inductive expr := mkE (e_id e_lineno e_col_offset : nat) (e_kind : ekind)
with ekind :=
  | Constant (value : pyval) (kind : option string)
  | Name (id : string) (ctx : expr_context)
  | Attribute (value : expr) (attr : string) (ctx : expr_context)
  | Subscript (value : expr) (slice : expr) (ctx : expr_context)
  | Slice (lower upper step : option expr)
  | ListE (elts : list expr) (ctx : expr_context)
  | TupleE (elts : list expr) (ctx : expr_context)
  | SetE (elts : list expr)
  | DictE (keys : list (option expr)) (values : list expr)
  | UnaryOp (op : unaryop) (operand : expr)
  | BinOp (left : expr) (op : binop) (right : expr)
  | BoolOp (op : boolop) (values : list expr)
  | Call (func : expr) (args : list expr) (keywords : list keyword)
  | Starred (value : expr) (ctx : expr_context)
  | OtherExpr (tag : string) (children : list expr)
with keyword := mkKeyword (arg : option string) (kw_value : expr).

Definition e_kind (e : expr) : ekind := match e with mkE _ _ _ k => k end.
Definition e_id (e : expr) : nat := match e with mkE i _ _ _ => i end.
Definition kw_value (k : keyword) : expr := match k with mkKeyword _ v => v end.

(** What a caller may pass to [Evaluator.__getitem__]: an [ast.expr], or
    any other Python object (a string, a statement node, [None], ...). *)
Inductive pyarg := AExpr (e : expr) | ANotExpr.

(** ** [ast.literal_eval] (CPython 3.9+) *)

Definition prec := 53%Z.
Definition emax := 1024%Z.

(** [float(int)]: round to nearest, [OverflowError] when too large *)
Definition int_to_float (z : Z) : outcome spec_float :=
  match binary_normalize prec emax z 0 false with
  | S754_infinity _ => Exc OverflowError
  | f => Ok f
  end.

Definition num_to_float (v : pyval) : outcome spec_float :=
  match v with
  | VInt z => int_to_float z
  | VFloat f => Ok f
  | _ => Exc TypeError
  end.

Definition py_neg (v : pyval) : outcome pyval :=
  match v with
  | VInt z => Ok (VInt (- z))
  | VBool b => Ok (VInt (- Z.b2z b))
  | VFloat f => Ok (VFloat (SFopp f))
  | VComplex re im => Ok (VComplex (SFopp re) (SFopp im))
  | _ => Exc TypeError
  end.

Definition py_pos (v : pyval) : outcome pyval :=
  match v with
  | VInt _ | VFloat _ | VComplex _ _ => Ok v
  | VBool b => Ok (VInt (Z.b2z b))
  | _ => Exc TypeError
  end.

Definition py_invert (v : pyval) : outcome pyval :=
  match v with
  | VInt z => Ok (VInt (Z.lnot z))
  | VBool b => Ok (VInt (Z.lnot (Z.b2z b)))
  | _ => Exc TypeError
  end.

(** [_convert_num] *)
Definition convert_num (n : expr) : outcome pyval :=
  match n with
  | mkE _ _ _ (Constant v _) =>
      match v with VInt _ | VFloat _ | VComplex _ _ => Ok v | _ => Exc ValueError end
  | _ => Exc ValueError
  end.

(** [_convert_signed_num] *)
Definition convert_signed_num (n : expr) : outcome pyval :=
  match n with
  | mkE _ _ _ (UnaryOp UAdd operand) => obind (convert_num operand) py_pos
  | mkE _ _ _ (UnaryOp USub operand) => obind (convert_num operand) py_neg
  | _ => convert_num n
  end.

Fixpoint omap {A B} (f : A -> outcome B) (xs : list A) : outcome (list B) :=
  match xs with
  | [] => Ok []
  | x :: xs' => obind (f x) (fun y => obind (omap f xs') (fun ys => Ok (y :: ys)))
  end.

(** [_convert] *)
Fixpoint literal_eval (n : expr) : outcome pyval :=
  match n with
  | mkE _ _ _ k =>
    match k with
    | Constant v _ => Ok v
    | TupleE elts _ => obind (omap literal_eval elts) (fun xs => Ok (VTuple xs))
    | ListE elts _ => obind (omap literal_eval elts) (fun xs => Ok (VList xs))
    | SetE elts => obind (omap literal_eval elts) build_set
    | Call (mkE _ _ _ (Name "set" _)) [] [] => Ok (VSet [])
    | DictE keys values =>
        if negb (Nat.eqb (List.length keys) (List.length values)) then Exc ValueError
        else
          (* [dict(zip(map(_convert, keys), map(_convert, values)))]: the
             conversions are done keys first here; which exception comes first
             may differ, and every exception is swallowed by the only caller *)
          obind (omap (fun kk => match kk with
                                 | Some ke => literal_eval ke
                                 | None => Exc ValueError
                                 end) keys) (fun ks =>
          obind (omap literal_eval values) (fun vs => build_dict (combine ks vs)))
    | BinOp l op r =>
        match op with
        | Add | Sub =>
          obind (convert_signed_num l) (fun left =>
          obind (convert_num r) (fun right =>
          match left, right with
          | (VInt _ | VFloat _), VComplex re im =>
              obind (num_to_float left) (fun lf =>
              match op with
              | Add => Ok (VComplex (SFadd prec emax lf re) im)
              | _ => Ok (VComplex (SFsub prec emax lf re) (SFsub prec emax float_zero im))
              end)
          | _, _ => convert_signed_num n
          end))
        | _ => convert_signed_num n
        end
    | _ => convert_signed_num n
    end
  end.

(** ** The evaluator session: its memo table, in a state and error monad

    [cache] is [Evaluator._cache] (node identity to the stored result, the
    [CannotEval] class itself being stored as the failure marker).  [handled]
    records, most recent first, every node on which [_handle] was entered: it
    is only an observation of the run, it never influences it. *)

Record state := mkState { cache : list (nat * pyval); handled : list nat }.

Definition M (A : Type) := state -> outcome A * state.

Definition ret {A} (a : A) : M A := fun st => (Ok a, st).
Definition raise {A} (e : exc) : M A := fun st => (Exc e, st).
Definition lift {A} (r : outcome A) : M A := fun st => (r, st).
Definition bind {A B} (c : M A) (f : A -> M B) : M B :=
  fun st => match c st with
            | (Ok a, st') => f a st'
            | (Exc e, st') => (Exc e, st')
            end.

Notation "x <- c ;; k" := (bind c (fun x => k)) (at level 61, c at next level, right associativity).

Fixpoint mapM {A B} (f : A -> M B) (xs : list A) : M (list B) :=
  match xs with
  | [] => ret []
  | x :: xs' => y <- f x ;; ys <- mapM f xs' ;; ret (y :: ys)
  end.

Fixpoint cache_lookup (c : list (nat * pyval)) (i : nat) : option pyval :=
  match c with
  | [] => None
  | (j, v) :: c' => if Nat.eqb i j then Some v else cache_lookup c' i
  end.

Fixpoint cache_set (c : list (nat * pyval)) (i : nat) (v : pyval) : list (nat * pyval) :=
  match c with
  | [] => [(i, v)]
  | (j, w) :: c' => if Nat.eqb i j then (j, v) :: c' else (j, w) :: cache_set c' i v
  end.

Definition store (st : state) (i : nat) (v : pyval) : state :=
  mkState (cache_set (cache st) i v) (handled st).

Definition note_handled (st : state) (i : nat) : state :=
  mkState (cache st) (i :: handled st).

(** [result is CannotEval] *)
Definition is_CannotEval (v : pyval) : bool :=
  match v with VObj OCannotEval => true | _ => false end.

Definition cannot_eval_marker : pyval := VObj OCannotEval.

Section Evaluator.
Variable heap : pyheap.
(** [self.names] *)
Variable names : list (string * pyval).
(** Python's [operator.add], [operator.sub], ... applied to two built-in
    operands (the built-in operator semantics; [_handle_binop] only decides
    when they are called and what becomes of their exceptions) *)
Variable binary_operator : binop -> pyval -> pyval -> outcome pyval.

Definition T (b : btype) : oid := OB b.

(** [_handle_boolop] *)
Definition boolop_allowed : list oid :=
  map T [TInt; TFloat; TComplex; TBool; TStr; TBytes; TRange; TList; TTuple;
         TDict; TSet; TFrozenset; TNoneType].

(** the loop [for right in node.values[1:]] *)
Fixpoint boolop_loop (self : expr -> M pyval) (op : boolop) (left : pyval) (rest : list expr)
  : M pyval :=
  match rest with
  | [] => ret left
  | rnode :: rest' =>
      left' <- (match op with
                | Or => if truthy left then ret left
                        else (y <- self rnode ;; lift (of_type heap y boolop_allowed))
                | And => if truthy left
                         then (y <- self rnode ;; lift (of_type heap y boolop_allowed))
                         else ret left
                end) ;;
      boolop_loop self op left' rest'
  end.

Definition handle_boolop (self : expr -> M pyval) (op : boolop) (values : list expr) : M pyval :=
  match values with
  | [] => raise IndexError
  | v0 :: rest =>
      x0 <- self v0 ;;
      left <- lift (of_type heap x0 boolop_allowed) ;;
      boolop_loop self op left rest
  end.

(** [_handle_binop] *)
Definition binop_supported (op : binop) : bool :=
  match op with MatMult => false | _ => true end.

Definition binop_allowed : list oid :=
  map T [TInt; TFloat; TComplex; TBool; TStr; TBytes; TRange; TList; TTuple].

Definition format_arg_types : list oid :=
  map T [TInt; TFloat; TComplex; TBool; TStr; TBytes; TRange].

Definition handle_binop (self : expr -> M pyval) (l : expr) (op : binop) (r : expr) : M pyval :=
  if negb (binop_supported op) then raise CannotEval else
  x <- self l ;; left <- lift (of_type heap x binop_allowed) ;;
  y <- self r ;; right <- lift (of_type heap y binop_allowed) ;;
  if is_any (type_of heap left) [T TStr; T TBytes]
     && match op with Mod => true | _ => false end
     && negb (is_any (type_of heap right) format_arg_types)
  then raise CannotEval
  else match binary_operator op left right with
       | Ok v => ret v
       | Exc _ => raise CannotEval
       end.

(** [_handle_unary] *)
Definition unary_allowed : list oid :=
  map T [TInt; TFloat; TComplex; TBool; TStr; TList; TDict; TSet; TTuple;
         TFrozenset; TBytes; TRange; TNoneType].

Definition unary_operator (op : unaryop) (v : pyval) : outcome pyval :=
  match op with
  | USub => py_neg v
  | UAdd => py_pos v
  | Not => Ok (VBool (negb (truthy v)))
  | Invert => py_invert v
  end.

Definition handle_unary (self : expr -> M pyval) (op : unaryop) (operand : expr) : M pyval :=
  x <- self operand ;; value <- lift (of_type heap x unary_allowed) ;;
  match unary_operator op value with
  | Ok v => ret v
  | Exc _ => raise CannotEval
  end.

(** [_handle_subscript] *)
Definition sequence_types : list oid := map T [TList; TTuple; TStr; TBytes; TBytearray].

(** the index of [_handle_subscript]: a [slice] built from the evaluated
    bounds (each [None] or exactly [int]/[bool]), or the evaluated node *)
Definition subscript_index (self : expr -> M pyval) (s : expr) : M pyval :=
  match s with
  | mkE _ _ _ (Slice lower upper step) =>
      let part (p : option expr) : M pyval :=
        match p with
        | None => ret VNone
        | Some pe => x <- self pe ;; lift (of_type heap x [T TInt; T TBool])
        end in
      a <- part lower ;; b <- part upper ;; c <- part step ;; ret (VSlice a b c)
  | _ => self s
  end.

Definition handle_subscript (self : expr -> M pyval) (v s : expr) : M pyval :=
  value <- self v ;;
  index <- subscript_index self s ;;
  _ <- (if is_any (type_of heap value) sequence_types then
          match index with
          | VSlice a b c =>
              mapM (fun i => lift (of_type heap i [T TInt; T TBool; T TNoneType])) [a; b; c]
          | _ => _ <- lift (of_type heap index [T TInt; T TBool]) ;; ret []
          end
        else
          _ <- lift (of_type heap value [T TDict]) ;;
          if safe_hash_key heap index
             && Z.ltb (Z.of_nat (match value with VDict kvs => List.length kvs | _ => 0 end)) 10000
             && forallb (safe_hash_key heap)
                  (match value with VDict kvs => map fst kvs | _ => [] end)
          then ret []
          else raise CannotEval) ;;
  match py_subscript value index with
  | Ok r => ret r
  | Exc KeyError | Exc IndexError => raise CannotEval
  | Exc e => raise e
  end.

(** [_handle_container] *)
Definition handle_container (self : expr -> M pyval) (k : ekind) : M pyval :=
  let self_opt (ko : option expr) : M pyval :=
    match ko with
    | Some ke => self ke
    (* [self[None]]: the [isinstance(node, ast.expr)] check of [__getitem__] *)
    | None => raise TypeError
    end in
  match k with
  | ListE elts _ => xs <- mapM self elts ;; ret (VList xs)
  | TupleE elts _ => xs <- mapM self elts ;; ret (VTuple xs)
  | SetE elts =>
      xs <- mapM self elts ;;
      if negb (forallb (safe_hash_key heap) xs) then raise CannotEval
      else lift (build_set xs)
  | DictE keys values =>
      xs <- mapM self_opt keys ;;
      if negb (forallb (safe_hash_key heap) xs) then raise CannotEval
      else
        vs <- mapM self values ;;
        ret (VDict (fold_left (fun d kv => dict_set d (fst kv) (snd kv)) (combine xs vs) []))
  | _ => raise CannotEval
  end.

(** [self.names[node.id]], a [KeyError] turned into [CannotEval] *)
Definition lookup_name (id : string) : M pyval :=
  match assoc_str id names with Some v => ret v | None => raise CannotEval end.

(** [_handle] *)
Definition handle (self : expr -> M pyval) (node : expr) : M pyval :=
  match literal_eval node with
  | Ok v => ret v
  | Exc _ =>
    match node with
    | mkE _ _ _ k =>
      match k with
      | Name id _ => lookup_name id
      | Attribute v attr _ => value <- self v ;; lift (getattr_static heap value attr)
      | Subscript v s _ => handle_subscript self v s
      | ListE _ _ | TupleE _ _ | SetE _ | DictE _ _ => handle_container self k
      | UnaryOp op operand => handle_unary self op operand
      | BinOp l op r => handle_binop self l op r
      | BoolOp op values => handle_boolop self op values
      | _ => raise CannotEval
      end
    end
  end.

(** [Evaluator.__getitem__] on an [ast.expr] *)
Fixpoint getitem (node : expr) : M pyval :=
  fun st =>
    match cache_lookup (cache st) (e_id node) with
    | Some result => if is_CannotEval result then (Exc CannotEval, st) else (Ok result, st)
    | None =>
        match handle getitem node (note_handled st (e_id node)) with
        | (Ok result, st') => (Ok result, store st' (e_id node) result)
        | (Exc CannotEval, st') => (Exc CannotEval, store st' (e_id node) cannot_eval_marker)
        | (Exc e, st') => (Exc e, st')
        end
    end.

(** [Evaluator.__getitem__] on any argument *)
Definition evaluate (node : pyarg) : M pyval :=
  match node with
  | AExpr e => getitem e
  | ANotExpr => raise TypeError
  end.

End Evaluator.

(** [Evaluator.from_frame]: [ChainMap(f_locals, f_globals, f_builtins)], whose
    lookup returns the entry of the first mapping that has the key *)
Definition from_frame (f_locals f_globals f_builtins : list (string * pyval)) : list (string * pyval) :=
  (f_locals ++ f_globals ++ f_builtins)%list.

(** ** A concrete heap: the built-in types, and the objects of the repository's tests *)

Definition wrapper_of (owner : btype) (n : string) : string * pyval :=
  (n, VDescr DWrapper (OB owner) n).

Definition builtin_type_dict (t : btype) : list (string * pyval) :=
  match t with
  | TType => [("__dict__", VDescr DGetSet (OB TType) "__dict__");
              ("__mro__", VDescr DGetSet (OB TType) "__mro__");
              ("mro", VDescr DMethod (OB TType) "mro")]
  | TObject => [wrapper_of TObject "__repr__"; wrapper_of TObject "__eq__"]
  | TMemberDescriptor => [wrapper_of t "__get__"; wrapper_of t "__set__"; wrapper_of t "__delete__"]
  | TGetSetDescriptor => [wrapper_of t "__get__"; wrapper_of t "__set__"; wrapper_of t "__delete__"]
  | TWrapperDescriptor | TMethodDescriptor | TFunction => [wrapper_of t "__get__"]
  | TStr => [("startswith", VDescr DMethod (OB TStr) "startswith"); wrapper_of TStr "__add__"]
  | TNoneType => [wrapper_of TNoneType "__repr__"]
  | _ => []
  end.

Definition builtin_type_mro (t : btype) : list oid :=
  match t with
  | TObject => [OB TObject]
  | TBool => [OB TBool; OB TInt; OB TObject]
  | _ => [OB t; OB TObject]
  end.

Definition a_class (mro : list oid) (d : list (string * pyval)) : pyobject :=
  mkObj (OB TType) (Some d) [] (Some mro).

(** [OU 1]: [class Thing: y = 'bar'; __slots__ = ['x']] of [test_slots];
    [OU 2]: an instance of it after [del thing.x];
    [OU 3]: [class meta(type): d = descriptor()] of [test_metaclass_with_descriptor];
    [OU 4]: its [class descriptor] with a Python [__get__] ([OU 6]);
    [OU 5]: the [descriptor()] instance; [OU 7]: [class Thing(metaclass=meta)];
    [OU 8]: the built-in [len];
    [OU 10]: [class Foo: d = descriptor()] of [test_descriptor];
    [OU 11]: [foo = Foo()] with [foo.__dict__['d'] = 1]. *)
Definition demo_heap (o : oid) : option pyobject :=
  match o with
  | OB t => Some (a_class (builtin_type_mro t) (builtin_type_dict t))
  | OCannotEval => Some (a_class [OCannotEval; OB TObject]
                                 [("__repr__", VObj (OU 9)); ("__str__", VObj (OU 9))])
  | OU 1 => Some (a_class [OU 1; OB TObject]
                          [("y", VStr "bar"); ("__slots__", VList [VStr "x"]);
                           ("x", VDescr DMember (OU 1) "x")])
  | OU 2 => Some (mkObj (OU 1) None [] None)
  | OU 3 => Some (a_class [OU 3; OB TType; OB TObject] [("d", VObj (OU 5))])
  | OU 4 => Some (a_class [OU 4; OB TObject]
                          [("__dict__", VDescr DGetSet (OU 4) "__dict__"); ("__get__", VObj (OU 6))])
  | OU 5 => Some (mkObj (OU 4) (Some []) [] None)
  | OU 6 => Some (mkObj (OB TFunction) (Some []) [] None)
  | OU 7 => Some (mkObj (OU 3) (Some [("__dict__", VDescr DGetSet (OU 7) "__dict__")]) []
                        (Some [OU 7; OB TObject]))
  | OU 8 => Some (mkObj (OB TBuiltinFunction) None [] None)
  | OU 9 => Some (mkObj (OB TFunction) (Some []) [] None)
  | OU 10 => Some (a_class [OU 10; OB TObject]
                           [("__dict__", VDescr DGetSet (OU 10) "__dict__"); ("d", VObj (OU 5))])
  | OU 11 => Some (mkObj (OU 10) (Some [("d", VInt 1)]) [] None)
  | _ => None
  end.

(** building nodes: identities are given explicitly, positions are irrelevant here *)
Definition node (i : nat) (k : ekind) : expr := mkE i 1 0 k.

Definition empty_state : state := mkState [] [].

(** a binary-operator table for integers, enough for the examples *)
Definition int_binary_operator (op : binop) (a b : pyval) : outcome pyval :=
  match as_index a, as_index b with
  | Some x, Some y =>
      match op with
      | Add => Ok (VInt (x + y))
      | Sub => Ok (VInt (x - y))
      | Mult => Ok (VInt (x * y))
      | _ => Exc TypeError
      end
  | _, _ => Exc TypeError
  end.

(** ** Decidable (Leibniz) equality of values and nodes *)

Definition btype_eq_dec (a b : btype) : {a = b} + {a <> b}.
Proof. decide equality. Defined.

Definition oid_eq_dec (a b : oid) : {a = b} + {a <> b}.
Proof. decide equality; [apply btype_eq_dec | apply Nat.eq_dec]. Defined.

Definition dkind_eq_dec (a b : dkind) : {a = b} + {a <> b}.
Proof. decide equality. Defined.

Definition spec_float_eq_dec (a b : spec_float) : {a = b} + {a <> b}.
Proof. decide equality; first [apply Bool.bool_dec | apply Pos.eq_dec | apply Z.eq_dec]. Defined.

Fixpoint pyval_eq_dec (a b : pyval) {struct a} : {a = b} + {a <> b}.
Proof.
  decide equality;
    first [ apply Bool.bool_dec | apply Z.eq_dec | apply string_dec
          | apply spec_float_eq_dec | apply oid_eq_dec | apply dkind_eq_dec
          | apply (list_eq_dec Byte.byte_eq_dec)
          | apply (list_eq_dec pyval_eq_dec)
          | apply list_eq_dec; intros [x1 x2] [y1 y2];
            destruct (pyval_eq_dec x1 y1), (pyval_eq_dec x2 y2);
            [left; congruence | right; congruence | right; congruence | right; congruence] ].
Defined.

Definition option_string_eq_dec (a b : option string) : {a = b} + {a <> b}.
Proof. decide equality; apply string_dec. Defined.

Fixpoint expr_eq_dec (a b : expr) {struct a} : {a = b} + {a <> b}
with ekind_eq_dec (a b : ekind) {struct a} : {a = b} + {a <> b}
with keyword_eq_dec (a b : keyword) {struct a} : {a = b} + {a <> b}.
Proof.
  - decide equality; first [apply Nat.eq_dec | apply ekind_eq_dec].
  - decide equality;
      first [ solve [apply expr_eq_dec] | solve [apply pyval_eq_dec]
            | solve [apply string_dec] | solve [apply option_string_eq_dec]
            | solve [decide equality] | solve [decide equality; apply expr_eq_dec]
            | solve [apply (list_eq_dec expr_eq_dec)]
            | solve [apply (list_eq_dec keyword_eq_dec)]
            | solve [apply list_eq_dec; decide equality; apply expr_eq_dec] ].
  - decide equality; first [apply expr_eq_dec | apply option_string_eq_dec].
Defined.

Definition unaryop_eq_dec (a b : unaryop) : {a = b} + {a <> b}.
Proof. decide equality. Defined.
Definition binop_eq_dec (a b : binop) : {a = b} + {a <> b}.
Proof. decide equality. Defined.
Definition boolop_eq_dec (a b : boolop) : {a = b} + {a <> b}.
Proof. decide equality. Defined.

(** ** [ast.walk] and [Evaluator.find_expressions]

    [ast.walk] is a breadth-first traversal over all AST nodes.  Besides
    expressions, the only nodes with expression children are [keyword]s;
    the [ctx] and operator nodes have no children and are skipped by
    [find_expressions], so they are left out of the traversal. *)

Inductive wnode := WExpr (e : expr) | WKeyword (k : keyword).

Definition opt_child (o : option expr) : list wnode :=
  match o with Some e => [WExpr e] | None => [] end.

(** [ast.iter_child_nodes], fields in [_fields] order *)
Definition iter_child_nodes (n : wnode) : list wnode :=
  match n with
  | WKeyword (mkKeyword _ v) => [WExpr v]
  | WExpr (mkE _ _ _ k) =>
    match k with
    | Constant _ _ | Name _ _ => []
    | Attribute v _ _ => [WExpr v]
    | Subscript v s _ => [WExpr v; WExpr s]
    | Slice lo up st => opt_child lo ++ opt_child up ++ opt_child st
    | ListE elts _ | TupleE elts _ | SetE elts => map WExpr elts
    | DictE keys values => flat_map opt_child keys ++ map WExpr values
    | UnaryOp _ x => [WExpr x]
    | BinOp l _ r => [WExpr l; WExpr r]
    | BoolOp _ vs => map WExpr vs
    | Call f args kws => WExpr f :: map WExpr args ++ map WKeyword kws
    | Starred v _ => [WExpr v]
    | OtherExpr _ cs => map WExpr cs
    end
  end.

(** number of nodes of a tree: the number of steps of the traversal *)
Local Open Scope nat_scope.
Fixpoint expr_size (e : expr) : nat :=
  match e with
  | mkE _ _ _ k =>
    S (match k with
       | Constant _ _ | Name _ _ => 0
       | Attribute v _ _ | UnaryOp _ v | Starred v _ => expr_size v
       | Subscript v s _ => expr_size v + expr_size s
       | BinOp l _ r => expr_size l + expr_size r
       | Slice lo up st =>
           (match lo with Some x => expr_size x | None => 0 end)
           + (match up with Some x => expr_size x | None => 0 end)
           + (match st with Some x => expr_size x | None => 0 end)
       | ListE elts _ | TupleE elts _ | SetE elts | BoolOp _ elts | OtherExpr _ elts =>
           list_sum (map expr_size elts)
       | DictE keys values =>
           list_sum (map (fun o => match o with Some x => expr_size x | None => 0 end) keys)
           + list_sum (map expr_size values)
       | Call f args kws =>
           expr_size f + list_sum (map expr_size args)
           + list_sum (map (fun kw => match kw with mkKeyword _ v => S (expr_size v) end) kws)
       end)
  end.

Fixpoint walk_queue (fuel : nat) (todo : list wnode) : list wnode :=
  match fuel with
  | O => []
  | S fuel' =>
      match todo with
      | [] => []
      | n :: rest => n :: walk_queue fuel' (rest ++ iter_child_nodes n)
      end
  end.

(** [ast.walk(root)] *)
Definition walk (root : expr) : list wnode := walk_queue (expr_size root) [WExpr root].
Local Open Scope Z_scope.

Section Walk.
Variable heap : pyheap.
Variable names : list (string * pyval).
Variable binary_operator : binop -> pyval -> pyval -> outcome pyval.

(** [find_expressions]: the pairs it yields, in order; an exception other
    than [CannotEval] escapes from the generator *)
Fixpoint find_in (ns : list wnode) : M (list (expr * pyval)) :=
  match ns with
  | [] => ret []
  | WKeyword _ :: rest => find_in rest
  | WExpr e :: rest =>
      fun st =>
        match getitem heap names binary_operator e st with
        | (Ok v, st') => match find_in rest st' with
                         | (Ok ps, st'') => (Ok ((e, v) :: ps), st'')
                         | (Exc x, st'') => (Exc x, st'')
                         end
        | (Exc CannotEval, st') => find_in rest st'
        | (Exc x, st') => (Exc x, st')
        end
  end.

Definition find_expressions (root : expr) : M (list (expr * pyval)) := find_in (walk root).

End Walk.

(** ** [copy_ast_without_context] and [group_expressions]

    [ast.dump] of the copy renders the copied tree injectively, so grouping
    by the dump string is grouping by the copied tree itself; the copy has no
    position attributes and no [ctx] ([ctx] reads as [Load] in the copy). *)

Fixpoint copy_ast_without_context (e : expr) : expr :=
  match e with
  | mkE _ _ _ k =>
    mkE 0 0 0
      (match k with
       | Constant v kd => Constant v kd
       | Name id _ => Name id Load
       | Attribute v a _ => Attribute (copy_ast_without_context v) a Load
       | Subscript v s _ => Subscript (copy_ast_without_context v) (copy_ast_without_context s) Load
       | Slice lo up st => Slice (option_map copy_ast_without_context lo)
                                 (option_map copy_ast_without_context up)
                                 (option_map copy_ast_without_context st)
       | ListE elts _ => ListE (map copy_ast_without_context elts) Load
       | TupleE elts _ => TupleE (map copy_ast_without_context elts) Load
       | SetE elts => SetE (map copy_ast_without_context elts)
       | DictE keys values => DictE (map (option_map copy_ast_without_context) keys)
                                    (map copy_ast_without_context values)
       | UnaryOp op x => UnaryOp op (copy_ast_without_context x)
       | BinOp l op r => BinOp (copy_ast_without_context l) op (copy_ast_without_context r)
       | BoolOp op vs => BoolOp op (map copy_ast_without_context vs)
       | Call f args kws =>
           Call (copy_ast_without_context f) (map copy_ast_without_context args)
                (map (fun kw => match kw with
                                | mkKeyword a v => mkKeyword a (copy_ast_without_context v)
                                end) kws)
       | Starred v _ => Starred (copy_ast_without_context v) Load
       | OtherExpr t cs => OtherExpr t (map copy_ast_without_context cs)
       end)
  end.

(** the grouping key of a node *)
Definition dump_key (e : expr) : expr := copy_ast_without_context e.

(** [result.setdefault(dump, ([], value))[0].append(node)] *)
Fixpoint setdefault_append (res : list (expr * (list expr * pyval))) (k : expr) (n : expr) (v : pyval)
  : list (expr * (list expr * pyval)) :=
  match res with
  | [] => [(k, ([n], v))]
  | (k', (ns, v')) :: res' =>
      if expr_eq_dec k k' then (k', (app ns [n], v')) :: res'
      else (k', (ns, v')) :: setdefault_append res' k n v
  end.

(** the dictionary [result] after the loop *)
Definition group_dict (expressions : list (expr * pyval)) : list (expr * (list expr * pyval)) :=
  fold_left (fun res p => setdefault_append res (dump_key (fst p)) (fst p) (snd p)) expressions [].

(** [group_expressions]: [list(result.values())] *)
Definition group_expressions (expressions : list (expr * pyval)) : list (list expr * pyval) :=
  map snd (group_dict expressions).

(** ** [is_expression_interesting] and [interesting_expressions_grouped] *)

(** [ast.literal_eval] as [is_expression_interesting] runs it, where the
    kind of exception matters (only [ValueError] is suppressed there):
    [set(map(_convert, elts))] and [dict(zip(map(_convert, keys),
    map(_convert, values)))] convert and insert one element at a time, so an
    unhashable element raises [TypeError] before the later elements are
    converted. *)
Fixpoint ast_literal_eval (n : expr) : outcome pyval :=
  match n with
  | mkE _ _ _ k =>
    match k with
    | Constant v _ => Ok v
    | TupleE elts _ => obind (omap ast_literal_eval elts) (fun xs => Ok (VTuple xs))
    | ListE elts _ => obind (omap ast_literal_eval elts) (fun xs => Ok (VList xs))
    | SetE elts =>
        (fix add (xs : list expr) (acc : list pyval) : outcome pyval :=
           match xs with
           | [] => Ok (VSet acc)
           | x :: xs' =>
               obind (ast_literal_eval x) (fun v =>
               if hashable v then add xs' (set_add acc v) else Exc TypeError)
           end) elts []
    | Call (mkE _ _ _ (Name "set" _)) [] [] => Ok (VSet [])
    | DictE keys values =>
        if negb (Nat.eqb (List.length keys) (List.length values)) then Exc ValueError
        else
          (* the conversions are pure: the pairs are taken in order, each key
             and value converted just before the pair is inserted *)
          (fix ins (ks vs : list (outcome pyval)) (acc : list (pyval * pyval))
             : outcome pyval :=
             match ks, vs with
             | ck :: ks', cv :: vs' =>
                 obind ck (fun kv =>
                 obind cv (fun vv =>
                 if hashable kv then ins ks' vs' (dict_set acc kv vv) else Exc TypeError))
             | _, _ => Ok (VDict acc)
             end)
            (map (fun kk => match kk with Some ke => ast_literal_eval ke | None => Exc ValueError end)
                 keys)
            (map ast_literal_eval values) []
    | BinOp l op r =>
        match op with
        | Add | Sub =>
          obind (convert_signed_num l) (fun left =>
          obind (convert_num r) (fun right =>
          match left, right with
          | (VInt _ | VFloat _), VComplex re im =>
              obind (num_to_float left) (fun lf =>
              match op with
              | Add => Ok (VComplex (SFadd prec emax lf re) im)
              | _ => Ok (VComplex (SFsub prec emax lf re) (SFsub prec emax float_zero im))
              end)
          | _, _ => convert_signed_num n
          end))
        | _ => convert_signed_num n
        end
    | _ => convert_signed_num n
    end
  end.

(** [utils.ast_name] *)
Definition ast_name (node : expr) : option string :=
  match e_kind node with
  | Name id _ => Some id
  | Attribute _ attr _ => Some attr
  | _ => None
  end.

(** [value is o] for a heap object [o] *)
Definition is_obj (value : pyval) (o : oid) : bool :=
  match value with VObj o' => oid_eqb o' o | _ => false end.

Section Interesting.
Variable heap : pyheap.
(** [safe_name_types] and [typing_annotation_types]: the types of the sample
    values of [utils.py], computed when the module is imported *)
Variable safe_name_types typing_annotation_types : list oid.
(** [typing.Optional] and [typing.Union] *)
Variable typing_Optional typing_Union : oid.
(** [value.__name__] *)
Variable dunder_name : pyval -> outcome pyval.
(** [getattr(value, attr, None)] *)
Variable getattr_or_none : pyval -> string -> outcome pyval.
(** [getattr(builtins, id, object()) is value] *)
Variable builtin_is : string -> pyval -> bool.
Variable names : list (string * pyval).
Variable binary_operator : binop -> pyval -> pyval -> outcome pyval.

(** [utils.safe_name]; its [None] is [VNone] *)
Definition safe_name (value : pyval) : outcome pyval :=
  let typ := type_of heap value in
  if is_any typ safe_name_types then dunder_name value
  else if is_obj value typing_Optional then Ok (VStr "Optional")
  else if is_obj value typing_Union then Ok (VStr "Union")
  else if is_any typ typing_annotation_types then
    obind (getattr_or_none value "__name__") (fun n =>
      if truthy n then Ok n else getattr_or_none value "_name")
  else Ok VNone.

(** [utils.has_ast_name]: [eq_checking_types(ast_name(node), value_name)]
    with [value_name] an exact [str] and [ast_name(node)] a [str] or [None] *)
Definition has_ast_name (value : pyval) (node : expr) : outcome bool :=
  obind (safe_name value) (fun value_name =>
  match value_name with
  | VStr s => Ok (match ast_name node with Some n => String.eqb n s | None => false end)
  | _ => Ok false
  end).

(** [is_expression_interesting] *)
Definition is_expression_interesting (node : expr) (value : pyval) : outcome bool :=
  match ast_literal_eval node with
  | Ok _ => Ok false
  | Exc ValueError =>
      obind (has_ast_name value node) (fun h =>
      if h then Ok false
      else match node with
           | mkE _ _ _ (Name id _) => Ok (negb (builtin_is id value))
           | _ => Ok true
           end)
  | Exc e => Exc e
  end.

(** the generator [pair for pair in self.find_expressions(root) if
    is_expression_interesting( *pair)] as [group_expressions] consumes it:
    each pair is tested as soon as [find_expressions] yields it *)
Fixpoint find_interesting (ns : list wnode) : M (list (expr * pyval)) :=
  match ns with
  | [] => ret []
  | WKeyword _ :: rest => find_interesting rest
  | WExpr e :: rest =>
      fun st =>
        match getitem heap names binary_operator e st with
        | (Ok v, st') =>
            match is_expression_interesting e v with
            | Ok true => match find_interesting rest st' with
                         | (Ok ps, st'') => (Ok ((e, v) :: ps), st'')
                         | (Exc x, st'') => (Exc x, st'')
                         end
            | Ok false => find_interesting rest st'
            | Exc x => (Exc x, st')
            end
        | (Exc CannotEval, st') => find_interesting rest st'
        | (Exc x, st') => (Exc x, st')
        end
  end.

(** [Evaluator.interesting_expressions_grouped] *)
Definition interesting_expressions_grouped (root : expr) : M (list (list expr * pyval)) :=
  ps <- find_interesting (walk root) ;; ret (group_expressions ps).

End Interesting.

(** ** Structural equivalence as the specification states it

    Two nodes are structurally equivalent when they have the same kind and
    all their fields match recursively, ignoring [ctx] and the source
    position (and the node identity [e_id]). *)

Definition dec_eqb {A} (d : forall a b : A, {a = b} + {a <> b}) (a b : A) : bool :=
  if d a b then true else false.

Fixpoint forall2b {A B} (f : A -> B -> bool) (xs : list A) (ys : list B) : bool :=
  match xs, ys with
  | [], [] => true
  | x :: xs', y :: ys' => f x y && forall2b f xs' ys'
  | _, _ => false
  end.

Definition opt_same {A} (f : A -> A -> bool) (a b : option A) : bool :=
  match a, b with
  | None, None => true
  | Some x, Some y => f x y
  | _, _ => false
  end.

Fixpoint same_structure (a b : expr) {struct a} : bool :=
  match a, b with
  | mkE _ _ _ ka, mkE _ _ _ kb =>
    match ka, kb with
    | Constant v k, Constant v' k' =>
        dec_eqb pyval_eq_dec v v' && dec_eqb option_string_eq_dec k k'
    | Name x _, Name y _ => String.eqb x y
    | Attribute v an _, Attribute v' an' _ => same_structure v v' && String.eqb an an'
    | Subscript v s _, Subscript v' s' _ => same_structure v v' && same_structure s s'
    | Slice lo up st, Slice lo' up' st' =>
        opt_same same_structure lo lo' && opt_same same_structure up up'
        && opt_same same_structure st st'
    | ListE xs _, ListE ys _ | TupleE xs _, TupleE ys _ | SetE xs, SetE ys =>
        forall2b same_structure xs ys
    | DictE ks vs, DictE ks' vs' =>
        forall2b (opt_same same_structure) ks ks' && forall2b same_structure vs vs'
    | UnaryOp o x, UnaryOp o' x' => dec_eqb unaryop_eq_dec o o' && same_structure x x'
    | BinOp l o r, BinOp l' o' r' =>
        same_structure l l' && dec_eqb binop_eq_dec o o' && same_structure r r'
    | BoolOp o vs, BoolOp o' vs' => dec_eqb boolop_eq_dec o o' && forall2b same_structure vs vs'
    | Call f args kws, Call f' args' kws' =>
        same_structure f f' && forall2b same_structure args args'
        && forall2b (fun kw kw' =>
                       match kw, kw' with
                       | mkKeyword a v, mkKeyword a' v' =>
                           dec_eqb option_string_eq_dec a a' && same_structure v v'
                       end) kws kws'
    | Starred v _, Starred v' _ => same_structure v v'
    | OtherExpr t cs, OtherExpr t' cs' => String.eqb t t' && forall2b same_structure cs cs'
    | _, _ => false
    end
  end.

(** An induction principle for nodes that goes into the lists and options
    of children. *)
Section ExprInd.
Variable P : expr -> Prop.
Definition OptP (o : option expr) : Prop := match o with Some e => P e | None => True end.
Hypothesis HConstant : forall i l c v k, P (mkE i l c (Constant v k)).
Hypothesis HName : forall i l c x ctx, P (mkE i l c (Name x ctx)).
Hypothesis HAttribute : forall i l c v a ctx, P v -> P (mkE i l c (Attribute v a ctx)).
Hypothesis HSubscript : forall i l c v s ctx, P v -> P s -> P (mkE i l c (Subscript v s ctx)).
Hypothesis HSlice : forall i l c lo up st, OptP lo -> OptP up -> OptP st -> P (mkE i l c (Slice lo up st)).
Hypothesis HList : forall i l c xs ctx, Forall P xs -> P (mkE i l c (ListE xs ctx)).
Hypothesis HTuple : forall i l c xs ctx, Forall P xs -> P (mkE i l c (TupleE xs ctx)).
Hypothesis HSet : forall i l c xs, Forall P xs -> P (mkE i l c (SetE xs)).
Hypothesis HDict : forall i l c ks vs, Forall OptP ks -> Forall P vs -> P (mkE i l c (DictE ks vs)).
Hypothesis HUnary : forall i l c o x, P x -> P (mkE i l c (UnaryOp o x)).
Hypothesis HBin : forall i l c x o y, P x -> P y -> P (mkE i l c (BinOp x o y)).
Hypothesis HBool : forall i l c o xs, Forall P xs -> P (mkE i l c (BoolOp o xs)).
Hypothesis HCall : forall i l c f args kws, P f -> Forall P args -> Forall (fun kw => P (kw_value kw)) kws ->
  P (mkE i l c (Call f args kws)).
Hypothesis HStarred : forall i l c v ctx, P v -> P (mkE i l c (Starred v ctx)).
Hypothesis HOther : forall i l c t xs, Forall P xs -> P (mkE i l c (OtherExpr t xs)).

Fixpoint expr_nested_ind (e : expr) : P e :=
  let all := fix all (xs : list expr) : Forall P xs :=
    match xs with [] => Forall_nil P | x :: xs' => Forall_cons x (expr_nested_ind x) (all xs') end in
  let opt (o : option expr) : OptP o :=
    match o with Some x => expr_nested_ind x | None => I end in
  match e with
  | mkE i l c k =>
    match k with
    | Constant v kd => HConstant i l c v kd
    | Name x ctx => HName i l c x ctx
    | Attribute v a ctx => HAttribute i l c v a ctx (expr_nested_ind v)
    | Subscript v s ctx => HSubscript i l c v s ctx (expr_nested_ind v) (expr_nested_ind s)
    | Slice lo up st => HSlice i l c lo up st (opt lo) (opt up) (opt st)
    | ListE xs ctx => HList i l c xs ctx (all xs)
    | TupleE xs ctx => HTuple i l c xs ctx (all xs)
    | SetE xs => HSet i l c xs (all xs)
    | DictE ks vs =>
        HDict i l c ks vs
          ((fix allo (os : list (option expr)) : Forall OptP os :=
              match os with [] => Forall_nil OptP | o :: os' => Forall_cons o (opt o) (allo os') end) ks)
          (all vs)
    | UnaryOp o x => HUnary i l c o x (expr_nested_ind x)
    | BinOp x o y => HBin i l c x o y (expr_nested_ind x) (expr_nested_ind y)
    | BoolOp o xs => HBool i l c o xs (all xs)
    | Call f args kws =>
        HCall i l c f args kws (expr_nested_ind f) (all args)
          ((fix allk (ks : list keyword) : Forall (fun kw => P (kw_value kw)) ks :=
              match ks with
              | [] => Forall_nil _
              | kw :: ks' =>
                  Forall_cons kw (match kw as kw0 return P (kw_value kw0) with
                                  | mkKeyword _ v => expr_nested_ind v end) (allk ks')
              end) kws)
    | Starred v ctx => HStarred i l c v ctx (expr_nested_ind v)
    | OtherExpr t xs => HOther i l c t xs (all xs)
    end
  end.
End ExprInd.

Definition copy_keyword (kw : keyword) : keyword :=
  match kw with mkKeyword a v => mkKeyword a (copy_ast_without_context v) end.

Definition same_keyword (kw kw' : keyword) : bool :=
  match kw, kw' with
  | mkKeyword a v, mkKeyword a' v' => dec_eqb option_string_eq_dec a a' && same_structure v v'
  end.

(** the entry of [result] for a grouping key, and the test "this pair has
    that key" *)
Fixpoint group_lookup (k : expr) (res : list (expr * (list expr * pyval)))
  : option (list expr * pyval) :=
  match res with
  | [] => None
  | (k', g) :: res' => if expr_eq_dec k k' then Some g else group_lookup k res'
  end.

Definition key_is (k : expr) (p : expr * pyval) : bool := dec_eqb expr_eq_dec (dump_key (fst p)) k.

(** [x[0] + x[x[0]]] of [test_group_expressions], its nodes numbered 1 to 9
    in pre-order *)
Definition x_tree : expr :=
  node 1 (BinOp (node 2 (Subscript (node 3 (Name "x" Load)) (node 4 (Constant (VInt 0) None)) Load))
                Add
                (node 5 (Subscript (node 6 (Name "x" Load))
                                   (node 7 (Subscript (node 8 (Name "x" Load))
                                                      (node 9 (Constant (VInt 0) None)) Load))
                                   Load))).

Definition x_names : list (string * pyval) := [("x", VTuple [VInt 1; VInt 2])].

(** its two occurrences of [x[0]] *)
Definition x0_left : expr :=
  node 2 (Subscript (node 3 (Name "x" Load)) (node 4 (Constant (VInt 0) None)) Load).

Definition x0_inner : expr :=
  node 7 (Subscript (node 8 (Name "x" Load)) (node 9 (Constant (VInt 0) None)) Load).

(** the pairs [find_expressions] yields on it *)
Definition x_found : list (expr * pyval) :=
  match fst (find_expressions demo_heap x_names int_binary_operator x_tree empty_state) with
  | Ok l => l
  | Exc _ => []
  end.

(** * Properties *)

(** ** Examples used by the properties below *)

(** [len(x)] with [x = [1, 2]] *)
Definition len_call : expr :=
  node 1 (Call (node 2 (Name "len" Load)) [node 3 (Name "x" Load)] []).

Definition len_names : list (string * pyval) :=
  [("len", VObj (OU 8)); ("x", VList [VInt 1; VInt 2])].

(** [thing.x] after [del thing.x] ([test_slots]), and [str.startswith] *)
Definition thing_x : expr := node 1 (Attribute (node 2 (Name "thing" Load)) "x" Load).

Definition str_startswith : expr := node 1 (Attribute (node 2 (Name "str" Load)) "startswith" Load).

Definition attr_names : list (string * pyval) :=
  [("thing", VObj (OU 2)); ("str", VObj (OB TStr))].

(** the name [x] bound to the class [CannotEval] itself *)
Definition x_name : expr := node 1 (Name "x" Load).

Definition cannot_eval_names : list (string * pyval) := [("x", VObj OCannotEval)].

(** [{**{}}] and [l[::0]] *)
Definition dict_unpack : expr := node 1 (DictE [None] [node 2 (DictE [] [])]).

Definition zero_step_slice : expr :=
  node 1 (Subscript (node 2 (Name "l" Load))
                    (node 3 (Slice None None (Some (node 4 (Constant (VInt 0) None))))) Load).

Definition list_names : list (string * pyval) := [("l", VList [VInt 1; VInt 2])].

(** [d[1]] with [d = {1: 2}] *)
Definition dict_index : expr :=
  node 1 (Subscript (node 2 (Name "d" Load)) (node 3 (Constant (VInt 1) None)) Load).

Definition dict_names : list (string * pyval) := [("d", VDict [(VInt 1, VInt 2)])].

(** [l[-1]] with [l = [1, 2]] *)
Definition neg_index : expr :=
  node 1 (Subscript (node 2 (Name "l" Load)) (node 3 (Constant (VInt (-1)) None)) Load).

(** the values of exact type [list], [tuple], [str], [bytes] or [bytearray] *)
Definition is_seq_value (v : pyval) : bool :=
  match v with VList _ | VTuple _ | VStr _ | VBytes _ | VBytearray _ => true | _ => false end.

(** [len(v)] of such a value *)
Definition seq_len (v : pyval) : Z :=
  match v with
  | VList xs | VTuple xs => Z.of_nat (List.length xs)
  | VStr s => Z.of_nat (String.length s)
  | VBytes bs | VBytearray bs => Z.of_nat (List.length bs)
  | _ => 0
  end.

(** The and/or chain as the specification describes it, for comparison
    with [handle_boolop]: operands are evaluated left to right, each one
    evaluated must have an allowed type, and evaluation stops as soon as the
    operator's short-circuit rule decides the chain (a truthy operand for
    [or], a falsy one for [and]); the chain's value is the last operand
    evaluated. *)
Definition chain_decided (op : boolop) (acc : pyval) : bool :=
  match op with Or => truthy acc | And => negb (truthy acc) end.

Fixpoint chain_rest_spec (heap : pyheap) (self : expr -> M pyval) (op : boolop)
  (acc : pyval) (rest : list expr) : M pyval :=
  match rest with
  | [] => ret acc
  | r :: rest' =>
      if chain_decided op acc then ret acc
      else y <- self r ;; v <- lift (of_type heap y boolop_allowed) ;;
           chain_rest_spec heap self op v rest'
  end.

Definition boolop_chain_spec (heap : pyheap) (self : expr -> M pyval) (op : boolop)
  (v0 : expr) (rest : list expr) : M pyval :=
  x <- self v0 ;; first <- lift (of_type heap x boolop_allowed) ;;
  chain_rest_spec heap self op first rest.

(** [a or b] with [a = 1] and [b] unbound *)
Definition a_name : expr := node 2 (Name "a" Load).

Definition b_name : expr := node 3 (Name "b" Load).

Definition or_names : list (string * pyval) := [("a", VInt 1)].

(** ** Predicates and examples of the further properties *)

(** every memo entry of [st] is still in [st'], with the same value *)
Definition mono (st st' : state) : Prop :=
  forall i w, cache_lookup (cache st) i = Some w -> cache_lookup (cache st') i = Some w.

(** a computation that never changes or removes a memo entry *)
Definition pres {A} (c : M A) : Prop := forall st r st', c st = (r, st') -> mono st st'.

(** a computation whose only exception is [CannotEval] *)
Definition only_ce {A} (c : M A) : Prop :=
  forall st r st', c st = (r, st') -> forall e, r = Exc e -> e = CannotEval.

(** nodes built without attribute access, subscripts, [**] in a dict
    display, or a [BoolOp] with no operands *)
Fixpoint plain_expr (e : expr) : bool :=
  match e with
  | mkE _ _ _ k =>
    match k with
    | Constant _ _ | Name _ _ | Slice _ _ _ => true
    | Attribute _ _ _ | Subscript _ _ _ => false
    | ListE elts _ | TupleE elts _ | SetE elts => forallb plain_expr elts
    | DictE keys values =>
        forallb (fun o => match o with Some x => plain_expr x | None => false end) keys
        && forallb plain_expr values
    | UnaryOp _ x => plain_expr x
    | BinOp l _ r => plain_expr l && plain_expr r
    | BoolOp _ vs => match vs with [] => false | _ => forallb plain_expr vs end
    | Call _ _ _ | Starred _ _ | OtherExpr _ _ => true
    end
  end.

(** [[x for x in xs if f(x)]] with a test [f] that may raise *)
Fixpoint ofilter {A} (f : A -> outcome bool) (xs : list A) : outcome (list A) :=
  match xs with
  | [] => Ok []
  | x :: xs' => obind (f x) (fun b => obind (ofilter f xs') (fun ys => Ok (if b then x :: ys else ys)))
  end.

(** [None.__repr__] *)
Definition none_repr : expr := node 1 (Attribute (node 2 (Constant VNone None)) "__repr__" Load).


(** [a @ b] and [s % l] *)
Definition matmul_ab : expr := node 1 (BinOp (node 2 (Name "a" Load)) MatMult (node 3 (Name "b" Load))).

Definition s_name : expr := node 2 (Name "s" Load).

Definition l_name : expr := node 3 (Name "l" Load).

Definition format_names : list (string * pyval) := [("s", VStr "%s"); ("l", VList [VInt 1])].

(** [x = (1, 2)] and the tree [[x, -x]] *)
Definition plain_tree : expr :=
  node 1 (ListE [node 2 (Name "x" Load); node 3 (UnaryOp USub (node 4 (Name "x" Load)))] Load).


(** the nodes held by the groups of [result] *)
Definition group_nodes (res : list (expr * (list expr * pyval))) : list expr :=
  List.concat (map (fun g => fst (snd g)) res).

(** [is_expression_interesting( *pair)] *)
Definition interesting_pair (heap : pyheap) (snt tat : list oid) (topt tun : oid)
  (dn : pyval -> outcome pyval) (gon : pyval -> string -> outcome pyval) (bis : string -> pyval -> bool)
  (p : expr * pyval) : outcome bool :=
  is_expression_interesting heap snt tat topt tun dn gon bis (fst p) (snd p).

(** an environment for [is_expression_interesting]: [len] ([OU 8]) is the
    one builtin, and its [__name__] is ['len'] *)
Definition demo_safe_name_types : list oid := [OB TBuiltinFunction; OB TFunction; OB TType].
Definition demo_dunder_name (v : pyval) : outcome pyval :=
  match v with VObj (OU 8) => Ok (VStr "len") | _ => Exc AttributeError end.
Definition demo_getattr_or_none (v : pyval) (a : string) : outcome pyval := Ok VNone.
Definition demo_builtin_is (id : string) (v : pyval) : bool :=
  if pyval_eq_dec v (VObj (OU 8)) then String.eqb id "len" else false.






(** ** Calls *)

(** C1: [_handle] has no case for calls. A call node evaluates only when
    [ast.literal_eval] folds it (just [set()]); every other call, including
    [len(x)] with [len] the built-in and [x = [1, 2]], is [CannotEval] and
    does not yield the built-in's result [2]. *)
Theorem C1_calls_not_evaluated :
  (forall heap names binary_operator self i l c f args kws st,
     handle heap names binary_operator self (mkE i l c (Call f args kws)) st =
     (match literal_eval (mkE i l c (Call f args kws)) with
      | Ok v => Ok v
      | Exc _ => Exc CannotEval
      end, st))
  /\ fst (getitem demo_heap len_names int_binary_operator len_call empty_state) = Exc CannotEval.
Proof.
  split.
  - intros. unfold handle. destruct (literal_eval _); reflexivity.
  - vm_compute. reflexivity.
Qed.

(** ** Attribute errors *)

(** C2: attribute resolution lets other exceptions through. For an
    instance of [class Thing: __slots__ = ['x']] whose slot is empty, the
    member descriptor's [__get__] raises [AttributeError], which reaches the
    caller of [evaluate]; [str.startswith] on the type raises [TypeError]
    from the method descriptor's [__get__]. *)
Theorem C2_attribute_errors_propagate :
  fst (getitem demo_heap attr_names int_binary_operator thing_x empty_state) = Exc AttributeError
  /\ getattr_static demo_heap (VObj (OU 2)) "x" = Exc AttributeError
  /\ fst (getitem demo_heap attr_names int_binary_operator str_startswith empty_state) = Exc TypeError.
Proof. vm_compute. repeat split. Qed.

(** ** The cache *)

(** C3: the cache does not give the same outcome twice in every case.
    A name bound to the class [CannotEval] is returned by the first lookup
    and stored; the stored value is then read back as the failure marker, so
    the second lookup is [CannotEval]. An exception other than [CannotEval]
    is not stored: the second evaluation of [thing.x] runs [_handle] on the
    node again (the log [handled] lists the most recent run first). *)
Theorem C3_cache_not_stable :
  (let (r1, st1) := getitem demo_heap cannot_eval_names int_binary_operator x_name empty_state in
   r1 = Ok (VObj OCannotEval)
   /\ fst (getitem demo_heap cannot_eval_names int_binary_operator x_name st1) = Exc CannotEval)
  /\ (let (_, st1) := getitem demo_heap attr_names int_binary_operator thing_x empty_state in
      handled st1 = [2%nat; 1%nat]
      /\ handled (snd (getitem demo_heap attr_names int_binary_operator thing_x st1))
         = [1%nat; 2%nat; 1%nat]).
Proof. vm_compute. repeat split; reflexivity. Qed.

(** ** Failures other than [CannotEval] *)

(** C4: an argument that is not an [ast.expr] is a [TypeError]; but valid
    nodes can fail with other exceptions too: [{**{}}] raises [TypeError]
    (its [None] key reaches [self[None]]) and [l[::0]] raises [ValueError]
    (the subscript handler turns only [KeyError] and [IndexError] into
    [CannotEval]). *)
Theorem C4_other_failures :
  (forall heap names binary_operator st,
     evaluate heap names binary_operator ANotExpr st = (Exc TypeError, st))
  /\ fst (getitem demo_heap [] int_binary_operator dict_unpack empty_state) = Exc TypeError
  /\ fst (getitem demo_heap list_names int_binary_operator zero_step_slice empty_state)
     = Exc ValueError.
Proof.
  split; [reflexivity |].
  vm_compute. split; reflexivity.
Qed.

(** ** The metaclass walk *)

(** C8: when a class has no attribute of the name, [getattr_static]
    returns the first entry of the metaclass's MRO as it is, without the
    descriptor rules: [Thing.d] of [test_metaclass_with_descriptor] gives the
    [descriptor()] object, although its type defines a Python [__get__] and
    is none of the trusted descriptor types. *)
Theorem C8_metaclass_entry_raw :
  getattr_static demo_heap (VObj (OU 7)) "d" = Ok (VObj (OU 5))
  /\ check_class demo_heap (type_of demo_heap (VObj (OU 5))) "__get__" = Ok (Some (VObj (OU 6)))
  /\ is_any (type_of demo_heap (VObj (OU 5))) safe_descriptor_types = false
  /\ resolve_descriptor demo_heap (VObj (OU 5)) (VObj (OU 7)) = Exc CannotEval.
Proof. vm_compute. repeat split. Qed.

(** ** Descriptor precedence *)

(** C7: when [obj] has an instance entry [ir] and the class hierarchy an
    entry [kr] for [attr], the class entry wins, through
    [_resolve_descriptor], exactly when the type of [kr] has both [__get__]
    and [__set__]; otherwise the instance entry is returned. With no instance
    entry, a class entry whose type has [__get__] also goes through
    [_resolve_descriptor]. [_resolve_descriptor] succeeds only on the three
    trusted descriptor types; any other type is [CannotEval] before any
    [__get__] is called. *)
Theorem C7_descriptor_precedence :
  forall heap obj attr ir kr,
  getattr_instance_result heap obj attr = Ok (Some ir) ->
  check_class heap (getattr_klass heap obj) attr = Ok (Some kr) ->
  (forall g s,
     check_class heap (type_of heap kr) "__get__" = Ok (Some g) ->
     check_class heap (type_of heap kr) "__set__" = Ok (Some s) ->
     getattr_static heap obj attr = resolve_descriptor heap kr obj)
  /\ (forall g,
        check_class heap (type_of heap kr) "__get__" = Ok (Some g) ->
        check_class heap (type_of heap kr) "__set__" = Ok None ->
        getattr_static heap obj attr = Ok ir)
  /\ (check_class heap (type_of heap kr) "__get__" = Ok None ->
      getattr_static heap obj attr = Ok ir)
  /\ (forall obj' attr' kr' g,
        getattr_instance_result heap obj' attr' = Ok None ->
        check_class heap (getattr_klass heap obj') attr' = Ok (Some kr') ->
        check_class heap (type_of heap kr') "__get__" = Ok (Some g) ->
        getattr_static heap obj' attr' = resolve_descriptor heap kr' obj')
  /\ (forall d o,
        is_any (type_of heap d) safe_descriptor_types = false ->
        resolve_descriptor heap d o = Exc CannotEval)
  /\ (forall d o v,
        resolve_descriptor heap d o = Ok v ->
        is_any (type_of heap d) safe_descriptor_types = true).
Proof.
  intros heap obj attr ir kr Hir Hkr.
  unfold getattr_static. rewrite Hir, Hkr. simpl.
  repeat split.
  - intros g s Hg Hs. rewrite Hg. simpl. rewrite Hs. reflexivity.
  - intros g Hg Hs. rewrite Hg. simpl. rewrite Hs. reflexivity.
  - intros Hg. rewrite Hg. reflexivity.
  - intros obj' attr' kr' g Hir' Hkr' Hg.
    rewrite Hir', Hkr'. simpl. rewrite Hg. reflexivity.
  - intros d o Hd. unfold resolve_descriptor, of_type, is_any in *. simpl in *.
    rewrite Hd. reflexivity.
  - intros d o v. unfold resolve_descriptor, of_type, is_any in *. simpl in *.
    destruct (_ || _); simpl; [reflexivity | discriminate].
Qed.

(** The hypotheses of [C7_descriptor_precedence] hold for [foo.d] of
    [test_descriptor], where the non-data descriptor leaves [foo.d = 1]. *)
Lemma C7_descriptor_precedence_witness :
  getattr_instance_result demo_heap (VObj (OU 11)) "d" = Ok (Some (VInt 1))
  /\ check_class demo_heap (getattr_klass demo_heap (VObj (OU 11))) "d" = Ok (Some (VObj (OU 5)))
  /\ getattr_static demo_heap (VObj (OU 11)) "d" = Ok (VInt 1).
Proof.
  assert (H1 : getattr_instance_result demo_heap (VObj (OU 11)) "d" = Ok (Some (VInt 1)))
    by (vm_compute; reflexivity).
  assert (H2 : check_class demo_heap (getattr_klass demo_heap (VObj (OU 11))) "d"
               = Ok (Some (VObj (OU 5)))) by (vm_compute; reflexivity).
  split; [exact H1 | split; [exact H2 |]].
  destruct (C7_descriptor_precedence demo_heap (VObj (OU 11)) "d" (VInt 1) (VObj (OU 5)) H1 H2)
    as [_ [Hnd _]].
  apply (Hnd (VObj (OU 6))); vm_compute; reflexivity.
Defined.

(** ** Unfolding the evaluator one step *)

(** a node missing from the cache is handled, and the outcome stored unless
    it is an exception other than [CannotEval] *)
Lemma getitem_miss : forall heap names binary_operator node st,
  cache_lookup (cache st) (e_id node) = None ->
  getitem heap names binary_operator node st =
  match handle heap names binary_operator (getitem heap names binary_operator) node
               (note_handled st (e_id node)) with
  | (Ok result, st') => (Ok result, store st' (e_id node) result)
  | (Exc CannotEval, st') => (Exc CannotEval, store st' (e_id node) cannot_eval_marker)
  | (Exc e, st') => (Exc e, st')
  end.
Proof. intros heap names binary_operator [i l c k] st H. cbn [getitem]. rewrite H. reflexivity. Qed.

Lemma handle_subscript_node : forall heap names binary_operator self i l c v s ctx,
  handle heap names binary_operator self (mkE i l c (Subscript v s ctx))
  = handle_subscript heap self v s.
Proof. reflexivity. Qed.

(** ** Sequence indexing *)

Lemma norm_index_spec : forall n k, 0 <= n ->
  match norm_index n k with
  | Some j => Z.of_nat j < n /\ -n <= k < n
  | None => ~ (-n <= k < n)
  end.
Proof.
  intros n k Hn. unfold norm_index.
  destruct (Z.ltb_spec k 0);
  [destruct (Z.leb_spec 0 (k + n)); destruct (Z.ltb_spec (k + n) n)
  |destruct (Z.leb_spec 0 k); destruct (Z.ltb_spec k n)];
  simpl; try (rewrite Z2Nat.id by lia); lia.
Qed.

Lemma string_get_lt : forall s j, (j < String.length s)%nat -> exists c, String.get j s = Some c.
Proof.
  induction s as [| a s IH]; intros j Hj; simpl in Hj; [lia |].
  destruct j as [| j]; simpl; [eauto | apply IH; lia].
Qed.

Lemma seq_index_spec : forall v k, is_seq_value v = true ->
  (-seq_len v <= k < seq_len v -> exists r, seq_index v k = Ok r)
  /\ (~ (-seq_len v <= k < seq_len v) -> seq_index v k = Exc IndexError).
Proof.
  intros v k Hv.
  destruct v; try discriminate Hv; simpl seq_len; unfold seq_index;
  match goal with
  | |- context [norm_index ?n k] =>
      pose proof (norm_index_spec n k ltac:(lia)) as Hn; destruct (norm_index n k) as [j |]
  end;
  split; intros Hr; try tauto;
  match goal with
  | |- exists r, match nth_error ?xs ?j with _ => _ end = _ =>
      destruct (nth_error xs j) eqn:E; [eauto | apply nth_error_None in E; lia]
  | |- exists r, match String.get ?j ?s with _ => _ end = _ =>
      destruct (String.get j s) eqn:E; [eauto |];
      destruct (string_get_lt s j ltac:(lia)) as [c' Hc]; congruence
  end.
Qed.

Lemma seq_index_last : forall xs x, seq_index (VList (app xs [x])) (-1) = Ok x.
Proof.
  intros xs x. unfold seq_index, norm_index.
  rewrite length_app. simpl Nat.add.
  replace (-1 + Z.of_nat (List.length xs + 1)) with (Z.of_nat (List.length xs)) by lia.
  simpl.
  destruct (Z.leb_spec 0 (Z.of_nat (List.length xs))); [| lia].
  destruct (Z.ltb_spec (Z.of_nat (List.length xs)) (Z.of_nat (List.length xs + 1))); [| lia].
  simpl. rewrite Nat2Z.id, (nth_error_app2 xs [x] (le_n _)), Nat.sub_diag. reflexivity.
Qed.

(** C10: for [value[index]] where [value] evaluates to a [list], [tuple],
    [str], [bytes] or [bytearray] of length [n] and [index] to an [int] or
    [bool] [k], the result is the native [value[k]] when [-n <= k < n], and
    [CannotEval] otherwise; e.g. index [-1] of a non-empty list is its last
    element. *)
Theorem C10_sequence_index :
  forall heap names binary_operator st i l c v s ctx value index k st1 st2,
  cache_lookup (cache st) i = None ->
  getitem heap names binary_operator v (note_handled st i) = (Ok value, st1) ->
  subscript_index heap (getitem heap names binary_operator) s st1 = (Ok index, st2) ->
  is_seq_value value = true ->
  as_index index = Some k ->
  let r := fst (getitem heap names binary_operator (mkE i l c (Subscript v s ctx)) st) in
  ((-seq_len value <= k < seq_len value -> exists x, r = Ok x /\ seq_index value k = Ok x)
   /\ (~ (-seq_len value <= k < seq_len value) -> r = Exc CannotEval))
  /\ (forall xs x, seq_index (VList (app xs [x])) (-1) = Ok x).
Proof.
  intros heap names binary_operator st i l c v s ctx value index k st1 st2 Hc Hv Hs Hseq Hk r.
  assert (E : r = match seq_index value k with
                  | Ok x => Ok x
                  | Exc KeyError | Exc IndexError => Exc CannotEval
                  | Exc e => Exc e
                  end).
  { subst r. rewrite getitem_miss by exact Hc. cbn [e_id].
    rewrite handle_subscript_node. unfold handle_subscript.
    unfold bind at 1. rewrite Hv.
    unfold bind at 1. rewrite Hs.
    destruct value; try discriminate Hseq;
    destruct index; try discriminate Hk; simpl in Hk; injection Hk as <-;
    cbn -[seq_index];
    destruct (seq_index _ _) as [x | []]; reflexivity. }
  split; [| exact seq_index_last].
  rewrite E. destruct (seq_index_spec value k Hseq) as [Hin Hout].
  split; intros Hr;
  [destruct (Hin Hr) as [x Hx]; rewrite Hx; eauto
  | rewrite (Hout Hr); reflexivity].
Qed.
(** [l[-1]] with [l = [1, 2]] satisfies the hypotheses of [C10_sequence_index]. *)
Lemma C10_sequence_index_witness :
  exists x, fst (getitem demo_heap list_names int_binary_operator neg_index empty_state) = Ok x
            /\ seq_index (VList [VInt 1; VInt 2]) (-1) = Ok x.
Proof.
  destruct (C10_sequence_index demo_heap list_names int_binary_operator empty_state 1 1 0
              (node 2 (Name "l" Load)) (node 3 (Constant (VInt (-1)) None)) Load
              (VList [VInt 1; VInt 2]) (VInt (-1)) (-1)
              (mkState [(2%nat, VList [VInt 1; VInt 2])] [2%nat; 1%nat])
              (mkState [(2%nat, VList [VInt 1; VInt 2]); (3%nat, VInt (-1))] [3%nat; 2%nat; 1%nat])
              ltac:(vm_compute; reflexivity) ltac:(vm_compute; reflexivity)
              ltac:(vm_compute; reflexivity) ltac:(vm_compute; reflexivity)
              ltac:(vm_compute; reflexivity))
    as [[Hin _] _].
  apply Hin. cbn. lia.
Defined.

(** ** Subscripts of mappings *)

(** a key accepted by [safe_hash_key] can be hashed *)
Lemma safe_hash_key_hashable heap (v : pyval) :
  safe_hash_key heap v = true -> hashable v = true.
Proof.
  revert v. fix safe_hash_key_hashable 1. intros v.
  destruct v as [| | b | z | f | re im | s | bs | bs | xs | xs | kvs | xs | xs | a b c | a b c | o | d o n | d o n];
  simpl; intros H; try reflexivity; try discriminate H.
  - induction xs as [| x xs IH]; simpl in *; [reflexivity |].
    apply andb_true_iff in H as [H1 H2].
    rewrite (safe_hash_key_hashable x H1). simpl. exact (IH H2).
  - induction xs as [| x xs IH]; simpl in *; [reflexivity |].
    apply andb_true_iff in H as [H1 H2].
    rewrite (safe_hash_key_hashable x H1). simpl. exact (IH H2).
Qed.
Lemma oid_eqb_true : forall a b, oid_eqb a b = true -> a = b.
Proof.
  intros [x | | x] [y | | y]; simpl; intros H; try discriminate H; try reflexivity.
  - destruct x, y; try discriminate H; reflexivity.
  - apply Nat.eqb_eq in H. congruence.
Qed.

(** [_handle_subscript] on a value that is not a sequence: only an exact
    [dict] is subscripted, after the checks on the index and on the keys *)
Lemma mapping_subscript_eq :
  forall heap names binary_operator st i l c v s ctx value index st1 st2,
  cache_lookup (cache st) i = None ->
  getitem heap names binary_operator v (note_handled st i) = (Ok value, st1) ->
  subscript_index heap (getitem heap names binary_operator) s st1 = (Ok index, st2) ->
  is_any (type_of heap value) sequence_types = false ->
  let r := fst (getitem heap names binary_operator (mkE i l c (Subscript v s ctx)) st) in
  (type_of heap value <> OB TDict -> r = Exc CannotEval)
  /\ (forall kvs, value = VDict kvs ->
      r = (if safe_hash_key heap index
              && Z.ltb (Z.of_nat (List.length kvs)) 10000
              && forallb (safe_hash_key heap) (map fst kvs)
           then match dict_lookup kvs index with Some x => Ok x | None => Exc CannotEval end
           else Exc CannotEval)).
Proof.
  intros heap names binary_operator st i l c v s ctx value index st1 st2 Hc Hv Hs Hseq r.
  subst r. split; [intros Hd | intros kvs ->];
  rewrite getitem_miss by exact Hc; cbn [e_id];
  rewrite handle_subscript_node; unfold handle_subscript;
  unfold bind at 1; rewrite Hv;
  unfold bind at 1; rewrite Hs;
  unfold bind at 1; rewrite Hseq.
  - assert (Hn : is_any (type_of heap value) [T TDict] = false).
    { unfold is_any. simpl. rewrite orb_false_r.
      destruct (oid_eqb _ _) eqn:E; [apply oid_eqb_true in E; contradiction | reflexivity]. }
    unfold bind at 1, lift at 1, of_type at 1. rewrite Hn. reflexivity.
  - cbn -[safe_hash_key dict_lookup hashable].
    destruct (safe_hash_key heap index) eqn:Hsafe; [| reflexivity].
    rewrite (safe_hash_key_hashable heap index Hsafe).
    destruct (_ && _); [| reflexivity].
    cbn -[dict_lookup]. destruct (dict_lookup kvs index); reflexivity.
Qed.

(** C5: for [value[index]] where [value] evaluates to something that is not
    a sequence: anything but an exact [dict] is [CannotEval]; on a [dict]
    the lookup succeeds, with the stored value, exactly when [index] passes
    [safe_hash_key], the dict has fewer than 10000 entries, every key of the
    dict passes [safe_hash_key] and the key is present. A dict of 10000 or
    more entries, a dict with any unsafe key, a missing key or a slice
    index gives [CannotEval]. *)
Theorem C5_mapping_subscript :
  forall heap names binary_operator st i l c v s ctx value index st1 st2,
  cache_lookup (cache st) i = None ->
  getitem heap names binary_operator v (note_handled st i) = (Ok value, st1) ->
  subscript_index heap (getitem heap names binary_operator) s st1 = (Ok index, st2) ->
  is_any (type_of heap value) sequence_types = false ->
  let r := fst (getitem heap names binary_operator (mkE i l c (Subscript v s ctx)) st) in
  (type_of heap value <> OB TDict -> r = Exc CannotEval)
  /\ (forall kvs, value = VDict kvs ->
      (forall x, r = Ok x <->
         safe_hash_key heap index = true
         /\ Z.of_nat (List.length kvs) < 10000
         /\ (forall k, In k (map fst kvs) -> safe_hash_key heap k = true)
         /\ dict_lookup kvs index = Some x)
      /\ (10000 <= Z.of_nat (List.length kvs) -> r = Exc CannotEval)
      /\ (forall k, In k (map fst kvs) -> safe_hash_key heap k = false -> r = Exc CannotEval)
      /\ (dict_lookup kvs index = None -> r = Exc CannotEval)
      /\ (forall a b c, index = VSlice a b c -> r = Exc CannotEval)).
Proof.
  intros heap names binary_operator st i l c v s ctx value index st1 st2 Hc Hv Hs Hseq r.
  destruct (mapping_subscript_eq heap names binary_operator st i l c v s ctx value index st1 st2
              Hc Hv Hs Hseq) as [Hnd Hd].
  split; [exact Hnd |].
  intros kvs Hk. specialize (Hd kvs Hk). fold r in Hd. rewrite Hd.
  split; [intros x; split | split; [| split; [| split]]].
  - intros Hx.
    destruct (safe_hash_key heap index) eqn:H1; [| discriminate Hx].
    destruct (Z.ltb_spec (Z.of_nat (List.length kvs)) 10000) as [H2 | H2]; [| discriminate Hx].
    destruct (forallb (safe_hash_key heap) (map fst kvs)) eqn:H3; [| discriminate Hx].
    rewrite forallb_forall in H3.
    simpl in Hx. destruct (dict_lookup kvs index) eqn:H4; [| discriminate Hx].
    injection Hx as ->. auto.
  - intros [H1 [H2 [H3 H4]]].
    rewrite H1, H4. apply Z.ltb_lt in H2. rewrite H2.
    assert (H3' : forallb (safe_hash_key heap) (map fst kvs) = true)
      by (apply forallb_forall; exact H3).
    rewrite H3'. reflexivity.
  - intros H. destruct (Z.ltb_spec (Z.of_nat (List.length kvs)) 10000); [lia |].
    rewrite andb_false_r. reflexivity.
  - intros k Hin Hk'.
    assert (H3 : forallb (safe_hash_key heap) (map fst kvs) = false).
    { destruct (forallb _ _) eqn:E; [| reflexivity].
      rewrite forallb_forall in E. rewrite (E k Hin) in Hk'. discriminate Hk'. }
    rewrite H3, andb_false_r. reflexivity.
  - intros H. rewrite H. destruct (_ && _); reflexivity.
  - intros a b c' ->. reflexivity.
Qed.

(** [d[1]] with [d = {1: 2}] satisfies the hypotheses of [C5_mapping_subscript]. *)
Lemma C5_mapping_subscript_witness :
  fst (getitem demo_heap dict_names int_binary_operator dict_index empty_state) = Ok (VInt 2).
Proof.
  destruct (C5_mapping_subscript demo_heap dict_names int_binary_operator empty_state 1 1 0
              (node 2 (Name "d" Load)) (node 3 (Constant (VInt 1) None)) Load
              (VDict [(VInt 1, VInt 2)]) (VInt 1)
              (mkState [(2%nat, VDict [(VInt 1, VInt 2)])] [2%nat; 1%nat])
              (mkState [(2%nat, VDict [(VInt 1, VInt 2)]); (3%nat, VInt 1)] [3%nat; 2%nat; 1%nat])
              ltac:(vm_compute; reflexivity) ltac:(vm_compute; reflexivity)
              ltac:(vm_compute; reflexivity) ltac:(vm_compute; reflexivity))
    as [_ Hd].
  apply (proj2 (proj1 (Hd _ eq_refl) (VInt 2))).
  split; [vm_compute; reflexivity |].
  split; [cbn; lia |].
  split; [| vm_compute; reflexivity].
  intros k Hk. destruct Hk as [<- | []]. vm_compute. reflexivity.
Defined.

(** ** And/or chains *)

(** once the chain is decided, the remaining iterations of the loop keep
    the operand and evaluate nothing *)
Lemma boolop_loop_decided : forall heap self op left rest st,
  chain_decided op left = true -> boolop_loop heap self op left rest st = (Ok left, st).
Proof.
  intros heap self op left rest. induction rest as [| r rest IH]; intros st H; [reflexivity |].
  pose proof H as H0.
  destruct op; simpl in H0 |- *;
  [apply negb_true_iff in H0; rewrite H0 | rewrite H0]; cbn [bind ret]; exact (IH st H).
Qed.

Lemma boolop_loop_spec : forall heap self op left rest st,
  boolop_loop heap self op left rest st = chain_rest_spec heap self op left rest st.
Proof.
  intros heap self op left rest. revert left.
  induction rest as [| r rest IH]; intros left st; [reflexivity |].
  simpl chain_rest_spec.
  destruct (chain_decided op left) eqn:Hd.
  - apply boolop_loop_decided. exact Hd.
  - simpl boolop_loop.
    destruct op; simpl in Hd; [apply negb_false_iff in Hd | ]; rewrite Hd;
    unfold bind, lift; destruct (self r st) as [[y | e] st']; cbv beta iota;
    try reflexivity; destruct (of_type heap y boolop_allowed); try reflexivity; apply IH.
Qed.

Lemma handle_boolop_node : forall heap names binary_operator self i l c op values,
  handle heap names binary_operator self (mkE i l c (BoolOp op values))
  = handle_boolop heap self op values.
Proof. reflexivity. Qed.

(** C6: the handler of an and/or node [op(v0, rest...)] is the
    specification's left-to-right short-circuit chain [boolop_chain_spec];
    in particular [x or y] with [x] evaluating to a truthy value of an
    allowed type gives that value whatever [y] is, and a first operand of a
    type outside the allowed set gives [CannotEval]. *)
Theorem C6_boolop_short_circuit :
  (forall heap names binary_operator self i l c op v0 rest st,
     handle heap names binary_operator self (mkE i l c (BoolOp op (v0 :: rest))) st
     = boolop_chain_spec heap self op v0 rest st)
  /\ (forall heap self x y st0 a st1,
        self x st0 = (Ok a, st1) ->
        is_any (type_of heap a) boolop_allowed = true ->
        truthy a = true ->
        handle_boolop heap self Or [x; y] st0 = (Ok a, st1))
  /\ (forall heap self op x rest st0 a st1,
        self x st0 = (Ok a, st1) ->
        is_any (type_of heap a) boolop_allowed = false ->
        handle_boolop heap self op (x :: rest) st0 = (Exc CannotEval, st1)).
Proof.
  split; [| split].
  - intros heap names binary_operator self i l c op v0 rest st.
    rewrite handle_boolop_node. unfold handle_boolop, boolop_chain_spec.
    unfold bind at 1 3. destruct (self v0 st) as [[x | e] st']; [| reflexivity].
    unfold bind, lift. destruct (of_type heap x boolop_allowed); [| reflexivity].
    apply boolop_loop_spec.
  - intros heap self x y st0 a st1 Hx Ha Ht.
    unfold handle_boolop. unfold bind at 1. rewrite Hx.
    unfold bind, lift, of_type. rewrite Ha.
    apply boolop_loop_decided. exact Ht.
  - intros heap self op x rest st0 a st1 Hx Ha.
    unfold handle_boolop. unfold bind at 1. rewrite Hx.
    unfold bind, lift, of_type. rewrite Ha. reflexivity.
Qed.

(** [a or b] with [a = 1] and [b] unbound: [b] cannot be evaluated, the
    chain can. *)
Lemma C6_boolop_short_circuit_witness :
  fst (getitem demo_heap or_names int_binary_operator b_name empty_state) = Exc CannotEval
  /\ handle_boolop demo_heap (getitem demo_heap or_names int_binary_operator) Or [a_name; b_name]
       empty_state = (Ok (VInt 1), mkState [(2%nat, VInt 1)] [2%nat]).
Proof.
  split; [vm_compute; reflexivity |].
  destruct C6_boolop_short_circuit as [_ [H _]].
  apply H; vm_compute; reflexivity.
Defined.

(** ** Grouping *)

Lemma dec_eqb_true : forall A (d : forall a b : A, {a = b} + {a <> b}) a b,
  dec_eqb d a b = true <-> a = b.
Proof. intros A d a b. unfold dec_eqb. destruct (d a b); split; congruence. Qed.

Lemma forall2b_copy : forall xs,
  Forall (fun a => forall b, same_structure a b = true <->
                             copy_ast_without_context a = copy_ast_without_context b) xs ->
  forall ys, forall2b same_structure xs ys = true <->
             map copy_ast_without_context xs = map copy_ast_without_context ys.
Proof.
  induction xs as [| x xs IH]; intros HF [| y ys]; simpl; split; intros H;
    try reflexivity; try discriminate H.
  - inversion HF as [| ? ? Hx HF']; subst.
    apply andb_true_iff in H as [H1 H2].
    apply Hx in H1. apply (IH HF') in H2. rewrite H1, H2. reflexivity.
  - inversion HF as [| ? ? Hx HF']; subst. injection H as H1 H2.
    apply andb_true_iff. split; [apply Hx | apply (IH HF')]; assumption.
Qed.

Lemma opt_same_copy : forall o,
  OptP (fun a => forall b, same_structure a b = true <->
                           copy_ast_without_context a = copy_ast_without_context b) o ->
  forall o', opt_same same_structure o o' = true <->
             option_map copy_ast_without_context o = option_map copy_ast_without_context o'.
Proof.
  intros [x |] Hx [y |]; simpl in *; split; intros H; try reflexivity; try discriminate H.
  - apply Hx in H. rewrite H. reflexivity.
  - injection H as H. apply Hx. exact H.
Qed.

Lemma forall2b_opt_copy : forall ks,
  Forall (OptP (fun a => forall b, same_structure a b = true <->
                                   copy_ast_without_context a = copy_ast_without_context b)) ks ->
  forall ks', forall2b (opt_same same_structure) ks ks' = true <->
              map (option_map copy_ast_without_context) ks
              = map (option_map copy_ast_without_context) ks'.
Proof.
  induction ks as [| k ks IH]; intros HF [| k' ks']; simpl; split; intros H;
    try reflexivity; try discriminate H.
  - inversion HF as [| ? ? Hk HF']; subst.
    apply andb_true_iff in H as [H1 H2].
    apply (opt_same_copy k Hk) in H1. apply (IH HF') in H2. rewrite H1, H2. reflexivity.
  - inversion HF as [| ? ? Hk HF']; subst. injection H as H1 H2.
    apply andb_true_iff. split; [apply (opt_same_copy k Hk) | apply (IH HF')]; assumption.
Qed.

Lemma forall2b_keyword_copy : forall kws,
  Forall (fun kw => forall b, same_structure (kw_value kw) b = true <->
            copy_ast_without_context (kw_value kw) = copy_ast_without_context b) kws ->
  forall kws', forall2b same_keyword kws kws' = true <->
               map copy_keyword kws = map copy_keyword kws'.
Proof.
  induction kws as [| [a v] kws IH]; intros HF [| [a' v'] kws']; simpl; split; intros H;
    try reflexivity; try discriminate H.
  - inversion HF as [| ? ? Hk HF']; subst. simpl in Hk.
    apply andb_true_iff in H as [H1 H2]. apply andb_true_iff in H1 as [H0 H1].
    apply dec_eqb_true in H0. apply Hk in H1. apply (IH HF') in H2.
    rewrite H0, H1, H2. reflexivity.
  - inversion HF as [| ? ? Hk HF']; subst. simpl in Hk. injection H as H0 H1 H2.
    apply andb_true_iff. split; [apply andb_true_iff; split |].
    + apply dec_eqb_true. exact H0.
    + apply Hk. exact H1.
    + apply (IH HF'). exact H2.
Qed.

Ltac finish_same :=
  split;
  [ intros Hs; decompose [and] Hs; f_equal; f_equal; congruence
  | intros Hs; injection Hs; intros; subst; repeat split; congruence ].

Lemma same_structure_copy : forall a b,
  same_structure a b = true <-> copy_ast_without_context a = copy_ast_without_context b.
Proof.
  apply (expr_nested_ind
    (fun a => forall b, same_structure a b = true <->
                        copy_ast_without_context a = copy_ast_without_context b));
  [ intros i l c v k | intros i l c x ctx | intros i l c v an ctx IHv
  | intros i l c v s ctx IHv IHs | intros i l c lo up st Hlo Hup Hst
  | intros i l c xs ctx Hxs | intros i l c xs ctx Hxs | intros i l c xs Hxs
  | intros i l c ks vs Hks Hvs | intros i l c o x IHx | intros i l c x o y IHx IHy
  | intros i l c o xs Hxs | intros i l c f args kws IHf Hargs Hkws
  | intros i l c v ctx IHv | intros i l c t xs Hxs ];
  intros [i' l' c' kb]; destruct kb; simpl;
  try (split; intros Hs; discriminate Hs).
  - rewrite andb_true_iff, !dec_eqb_true. finish_same.
  - rewrite String.eqb_eq. finish_same.
  - rewrite andb_true_iff, IHv, String.eqb_eq. finish_same.
  - rewrite andb_true_iff, IHv, IHs. finish_same.
  - rewrite !andb_true_iff, (opt_same_copy _ Hlo), (opt_same_copy _ Hup), (opt_same_copy _ Hst).
    finish_same.
  - rewrite (forall2b_copy _ Hxs). finish_same.
  - rewrite (forall2b_copy _ Hxs). finish_same.
  - rewrite (forall2b_copy _ Hxs). finish_same.
  - rewrite andb_true_iff, (forall2b_opt_copy _ Hks), (forall2b_copy _ Hvs). finish_same.
  - rewrite andb_true_iff, dec_eqb_true, IHx. finish_same.
  - rewrite !andb_true_iff, dec_eqb_true, IHx, IHy. finish_same.
  - rewrite andb_true_iff, dec_eqb_true, (forall2b_copy _ Hxs). finish_same.
  - rewrite !andb_true_iff, IHf, (forall2b_copy _ Hargs),
      (forall2b_keyword_copy _ Hkws). unfold copy_keyword. finish_same.
  - rewrite IHv. finish_same.
  - rewrite andb_true_iff, String.eqb_eq, (forall2b_copy _ Hxs). finish_same.
Qed.

(** equivalence is equality of the copies made by [copy_ast_without_context] *)
Lemma setdefault_lookup : forall res k n w k',
  group_lookup k' (setdefault_append res k n w)
  = if expr_eq_dec k' k
    then Some (match group_lookup k res with
               | Some (ns, v) => (app ns [n], v)
               | None => ([n], w)
               end)
    else group_lookup k' res.
Proof.
  induction res as [| [k0 [ns v]] res IH]; intros k n w k'; simpl.
  - destruct (expr_eq_dec k' k); reflexivity.
  - destruct (expr_eq_dec k k0) as [-> | Hne]; simpl.
    + destruct (expr_eq_dec k' k0); destruct (expr_eq_dec k0 k0); congruence.
    + rewrite IH. destruct (expr_eq_dec k' k0), (expr_eq_dec k' k), (expr_eq_dec k k0);
        subst; congruence.
Qed.

Lemma find_app_l : forall {A} (f : A -> bool) l1 l2,
  find f (app l1 l2) = match find f l1 with Some x => Some x | None => find f l2 end.
Proof.
  intros A f l1 l2. induction l1 as [| a l1 IH]; simpl; [reflexivity |].
  destruct (f a); [reflexivity | exact IH].
Qed.

Lemma find_none_filter : forall {A} (f : A -> bool) l, find f l = None -> filter f l = [].
Proof.
  intros A f l. induction l as [| a l IH]; simpl; [reflexivity |].
  destruct (f a); [discriminate | exact IH].
Qed.

Lemma group_dict_snoc : forall ps p,
  group_dict (app ps [p]) = setdefault_append (group_dict ps) (dump_key (fst p)) (fst p) (snd p).
Proof. intros ps p. unfold group_dict. rewrite fold_left_app. reflexivity. Qed.

Lemma group_dict_lookup : forall ps k,
  group_lookup k (group_dict ps) =
  match find (key_is k) ps with
  | Some (_, v) => Some (map fst (filter (key_is k) ps), v)
  | None => None
  end.
Proof.
  intros ps k. revert k. induction ps as [| p ps IH] using rev_ind; intros k; [reflexivity |].
  rewrite group_dict_snoc, setdefault_lookup, find_app_l, filter_app, map_app.
  assert (Hp : key_is k p = if expr_eq_dec k (dump_key (fst p)) then true else false).
  { unfold key_is, dec_eqb. destruct (expr_eq_dec (dump_key (fst p)) k), (expr_eq_dec k (dump_key (fst p)));
    congruence. }
  simpl. rewrite Hp.
  destruct (expr_eq_dec k (dump_key (fst p))) as [-> | Hne].
  - rewrite IH.
    destruct (find (key_is (dump_key (fst p))) ps) as [[n0 v0] |] eqn:Hf.
    + reflexivity.
    + rewrite (find_none_filter _ _ Hf). destruct p; reflexivity.
  - rewrite IH, app_nil_r. destruct (find (key_is k) ps) as [[n0 v0] |]; reflexivity.
Qed.

Lemma setdefault_keys : forall res k n w,
  map fst (setdefault_append res k n w)
  = match group_lookup k res with Some _ => map fst res | None => app (map fst res) [k] end.
Proof.
  induction res as [| [k0 [ns v]] res IH]; intros k n w; simpl; [reflexivity |].
  destruct (expr_eq_dec k k0) as [-> | Hne]; simpl; [reflexivity |].
  rewrite IH. destruct (group_lookup k res); reflexivity.
Qed.

Lemma lookup_none_notin : forall res k, group_lookup k res = None -> ~ In k (map fst res).
Proof.
  induction res as [| [k0 g] res IH]; intros k H; simpl in *; [tauto |].
  destruct (expr_eq_dec k k0); [discriminate H |].
  intros [-> | Hin]; [congruence | exact (IH k H Hin)].
Qed.

Lemma group_dict_nodup : forall ps, NoDup (map fst (group_dict ps)).
Proof.
  intros ps. induction ps as [| p ps IH] using rev_ind; [constructor |].
  rewrite group_dict_snoc, setdefault_keys.
  destruct (group_lookup (dump_key (fst p)) (group_dict ps)) eqn:Hl; [exact IH |].
  apply NoDup_app; [exact IH | constructor; [simpl; tauto | constructor] |].
  intros a Ha [<- | []]. exact (lookup_none_notin _ _ Hl Ha).
Qed.

Lemma nodup_in_lookup : forall res k g,
  NoDup (map fst res) -> In (k, g) res -> group_lookup k res = Some g.
Proof.
  induction res as [| [k0 g0] res IH]; intros k g Hnd Hin; simpl in *; [tauto |].
  inversion Hnd as [| ? ? Hnotin Hnd']; subst.
  destruct Hin as [Heq | Hin].
  - injection Heq as -> ->. destruct (expr_eq_dec k k); congruence.
  - destruct (expr_eq_dec k k0) as [-> |]; [| exact (IH k g Hnd' Hin)].
    exfalso. apply Hnotin. apply (in_map fst) in Hin. exact Hin.
Qed.

Lemma key_is_same : forall n p, key_is (dump_key n) p = same_structure n (fst p).
Proof.
  intros n [m v]. unfold key_is, dec_eqb, dump_key. simpl.
  destruct (expr_eq_dec (copy_ast_without_context m) (copy_ast_without_context n)) as [E | E].
  - symmetry. apply same_structure_copy. symmetry. exact E.
  - destruct (same_structure n m) eqn:S; [| reflexivity].
    apply same_structure_copy in S. congruence.
Qed.

Lemma lookup_in : forall res k g, group_lookup k res = Some g -> In (k, g) res.
Proof.
  induction res as [| [k0 g0] res IH]; intros k g H; simpl in *; [discriminate H |].
  destruct (expr_eq_dec k k0) as [-> | _]; [injection H as ->; left; reflexivity |].
  right. exact (IH k g H).
Qed.

Lemma find_in_some : forall {A} (f : A -> bool) l x, In x l -> f x = true -> exists y, find f l = Some y.
Proof.
  intros A f l x. induction l as [| a l IH]; intros Hin Hx; simpl in *; [tauto |].
  destruct (f a) eqn:Ha; [eauto |].
  destruct Hin as [-> | Hin]; [congruence | exact (IH Hin Hx)].
Qed.

Lemma key_is_dump : forall k p, key_is k p = true -> dump_key (fst p) = k.
Proof. intros k p. unfold key_is, dec_eqb. destruct (expr_eq_dec _ _); congruence. Qed.

(** the groups of [group_dict]: each key's group is the list of nodes with
    that key, in order, with the value of the first of them *)
Lemma group_dict_groups : forall ps k g,
  In (k, g) (group_dict ps) ->
  exists n0 v0, find (key_is k) ps = Some (n0, v0)
                /\ g = (map fst (filter (key_is k) ps), v0).
Proof.
  intros ps k g Hin.
  pose proof (nodup_in_lookup _ _ _ (group_dict_nodup ps) Hin) as Hl.
  rewrite group_dict_lookup in Hl.
  destruct (find (key_is k) ps) as [[n0 v0] |]; [| discriminate Hl].
  injection Hl as <-. eauto.
Qed.

(** C9: [group_expressions] puts two of the given nodes in the same group
    exactly when they are structurally equivalent ([same_structure]: same
    kind and fields, ignoring [ctx] and positions); each group holds all the
    nodes equivalent to its first node, in order, with the value paired with
    that first node. For [x[0] + x[x[0]]] with [x = (1, 2)], the two [x[0]]
    (nodes 2 and 7) form one group with value 1 and [x[x[0]]] (node 5) is a
    group of its own with value 2. *)
Theorem C9_group_expressions :
  forall ps,
  (forall n1 v1 n2 v2, In (n1, v1) ps -> In (n2, v2) ps ->
     ((exists g, In g (group_expressions ps) /\ In n1 (fst g) /\ In n2 (fst g))
      <-> same_structure n1 n2 = true))
  /\ (forall g, In g (group_expressions ps) ->
       exists n0 v0, In (n0, v0) ps
         /\ fst g = map fst (filter (fun p => same_structure n0 (fst p)) ps)
         /\ find (fun p => same_structure n0 (fst p)) ps = Some (n0, v0)
         /\ snd g = v0)
  /\ (fst (find_expressions demo_heap x_names int_binary_operator x_tree empty_state) = Ok x_found
      /\ map (fun g => (map e_id (fst g), snd g)) (group_expressions x_found)
         = [([1%nat], VInt 3); ([2%nat; 7%nat], VInt 1); ([5%nat], VInt 2);
            ([3%nat; 6%nat; 8%nat], VTuple [VInt 1; VInt 2]); ([4%nat; 9%nat], VInt 0)]).
Proof.
  intros ps. split; [| split].
  - intros n1 v1 n2 v2 H1 H2. split.
    + intros [g [Hg [Hn1 Hn2]]].
      unfold group_expressions in Hg. apply in_map_iff in Hg as [[k g'] [<- Hin]].
      destruct (group_dict_groups ps k g' Hin) as [n0 [v0 [_ ->]]]. simpl in Hn1, Hn2.
      apply in_map_iff in Hn1 as [p1 [<- Hp1]]. apply in_map_iff in Hn2 as [p2 [<- Hp2]].
      apply filter_In in Hp1 as [_ Hk1]. apply filter_In in Hp2 as [_ Hk2].
      apply key_is_dump in Hk1. apply key_is_dump in Hk2.
      apply same_structure_copy. unfold dump_key in *. congruence.
    + intros Hs. apply same_structure_copy in Hs.
      set (k := dump_key n1).
      assert (Hk1 : key_is k (n1, v1) = true)
        by (unfold key_is, dec_eqb; destruct (expr_eq_dec _ _); [reflexivity | contradiction]).
      assert (Hk2 : key_is k (n2, v2) = true)
        by (unfold key_is, dec_eqb, k, dump_key; simpl;
            destruct (expr_eq_dec _ _); [reflexivity | congruence]).
      destruct (find_in_some (key_is k) ps (n1, v1) H1 Hk1) as [[n0 v0] Hf].
      pose proof (group_dict_lookup ps k) as Hl. rewrite Hf in Hl.
      apply lookup_in in Hl.
      exists (map fst (filter (key_is k) ps), v0). repeat split.
      * unfold group_expressions. apply in_map_iff. eexists; split; [| exact Hl]. reflexivity.
      * simpl. apply in_map_iff. exists (n1, v1). split; [reflexivity |].
        apply filter_In. split; assumption.
      * simpl. apply in_map_iff. exists (n2, v2). split; [reflexivity |].
        apply filter_In. split; assumption.
  - intros g Hg. unfold group_expressions in Hg. apply in_map_iff in Hg as [[k g'] [<- Hin]].
    destruct (group_dict_groups ps k g' Hin) as [n0 [v0 [Hf ->]]].
    pose proof (find_some _ _ Hf) as [Hin0 Hk0]. apply key_is_dump in Hk0. simpl in Hk0. subst k.
    exists n0, v0. split; [exact Hin0 |]. simpl.
    rewrite (filter_ext _ _ (key_is_same n0)).
    split; [reflexivity | split; [| reflexivity]].
    rewrite <- Hf. clear Hf Hin Hin0. induction ps as [| p ps IH]; simpl; [reflexivity |].
    rewrite key_is_same. destruct (same_structure n0 (fst p)); [reflexivity | exact IH].
  - vm_compute. split; reflexivity.
Qed.

(** The two [x[0]] of [x[0] + x[x[0]]] are among the pairs found, and share a
    group. *)
Lemma C9_group_expressions_witness :
  exists g, In g (group_expressions x_found) /\ In x0_left (fst g) /\ In x0_inner (fst g).
Proof.
  destruct (C9_group_expressions x_found) as [H _].
  apply (H x0_left (VInt 1) x0_inner (VInt 1)).
  - vm_compute. right. left. reflexivity.
  - vm_compute. right. right. right. right. right. right. left. reflexivity.
  - vm_compute. reflexivity.
Defined.

(** ** Further properties of the evaluator *)

(** *** Helper lemmas: the cache is kept, and the exceptions that escape *)

Lemma mono_refl : forall st, mono st st.
Proof. unfold mono. auto. Qed.

Lemma mono_trans : forall st1 st2 st3, mono st1 st2 -> mono st2 st3 -> mono st1 st3.
Proof. unfold mono. auto. Qed.

Lemma cache_set_same : forall c i v, cache_lookup (cache_set c i v) i = Some v.
Proof.
  induction c as [| [j w] c IH]; intros i v; simpl.
  - rewrite Nat.eqb_refl. reflexivity.
  - destruct (Nat.eqb i j) eqn:E; simpl; rewrite E; [reflexivity | apply IH].
Qed.

Lemma cache_set_other : forall c i j v, i <> j ->
  cache_lookup (cache_set c j v) i = cache_lookup c i.
Proof.
  induction c as [| [k w] c IH]; intros i j v Hne; simpl.
  - destruct (Nat.eqb i j) eqn:E; [apply Nat.eqb_eq in E; contradiction | reflexivity].
  - destruct (Nat.eqb j k) eqn:E; simpl.
    + apply Nat.eqb_eq in E. subst k.
      destruct (Nat.eqb i j) eqn:E'; [apply Nat.eqb_eq in E'; contradiction | reflexivity].
    + destruct (Nat.eqb i k); [reflexivity | apply IH; exact Hne].
Qed.

Lemma pres_ret : forall A (a : A), pres (ret a).
Proof. unfold pres, ret. intros A a st r st' H. injection H as _ <-. apply mono_refl. Qed.

Lemma pres_raise : forall A e, pres (@raise A e).
Proof. unfold pres, raise. intros A e st r st' H. injection H as _ <-. apply mono_refl. Qed.

Lemma pres_lift : forall A (r : outcome A), pres (lift r).
Proof. unfold pres, lift. intros A r0 st r st' H. injection H as _ <-. apply mono_refl. Qed.

Lemma pres_bind : forall A B (c : M A) (f : A -> M B),
  pres c -> (forall a, pres (f a)) -> pres (bind c f).
Proof.
  unfold pres, bind. intros A B c f Hc Hf st r st' H.
  destruct (c st) as [[a | e] st1] eqn:E.
  - eapply mono_trans; [eapply Hc; exact E | eapply Hf; exact H].
  - injection H as _ <-. eapply Hc. exact E.
Qed.

Lemma pres_mapM : forall A B (f : A -> M B) xs,
  (forall x, In x xs -> pres (f x)) -> pres (mapM f xs).
Proof.
  induction xs as [| x xs IH]; intros H; simpl.
  - apply pres_ret.
  - apply pres_bind; [apply H; left; reflexivity | intros y].
    apply pres_bind; [apply IH; intros x' Hx'; apply H; right; exact Hx' | intros ys].
    apply pres_ret.
Qed.

Lemma size_in : forall x xs, In x xs -> (expr_size x <= list_sum (map expr_size xs))%nat.
Proof.
  induction xs as [| y xs IH]; simpl; [contradiction |].
  intros [<- | H]; [lia | specialize (IH H); lia].
Qed.

Lemma size_in_opt : forall x keys, In (Some x) keys ->
  (expr_size x <= list_sum (map (fun o => match o with Some x => expr_size x | None => 0%nat end) keys))%nat.
Proof.
  induction keys as [| y keys IH]; simpl; [contradiction |].
  intros [-> | H]; [lia | specialize (IH H); lia].
Qed.

Lemma pres_boolop_loop : forall heap self op left rest,
  (forall x, In x rest -> pres (self x)) -> pres (boolop_loop heap self op left rest).
Proof.
  intros heap self op left rest. revert left.
  induction rest as [| r rest IH]; intros left H; simpl.
  - apply pres_ret.
  - apply pres_bind; [| intros a; apply IH; intros x Hx; apply H; right; exact Hx].
    assert (Hr : pres (self r)) by (apply H; left; reflexivity).
    destruct op, (truthy left);
      first [apply pres_ret | apply pres_bind; [exact Hr | intros; apply pres_lift]].
Qed.

Ltac pres_go :=
  repeat match goal with
  | |- pres (ret _) => apply pres_ret
  | |- pres (raise _) => apply pres_raise
  | |- pres (lift _) => apply pres_lift
  | |- pres (bind _ _) => apply pres_bind; [| intros ?]
  | |- pres (if ?b then _ else _) => destruct b
  | |- pres (match ?x with _ => _ end) => destruct x
  end.

Lemma handle_pres : forall heap names bo self node,
  (forall e, (expr_size e < expr_size node)%nat -> pres (self e)) ->
  pres (handle heap names bo self node).
Proof.
  intros heap names bo self [i l c k] Hs. unfold handle.
  destruct (literal_eval _); [apply pres_ret |].
  destruct k; simpl in Hs.
  - apply pres_raise.
  - unfold lookup_name. destruct (assoc_str _ _); [apply pres_ret | apply pres_raise].
  - apply pres_bind; [apply Hs; lia | intros; apply pres_lift].
  - (* subscript *)
    unfold handle_subscript. apply pres_bind; [apply Hs; lia | intros vv].
    apply pres_bind.
    + unfold subscript_index. destruct slice as [si sl sc sk].
      destruct sk; try (apply Hs; simpl in *; lia).
      simpl in Hs.
      destruct lower as [lo |], upper as [up |], step as [stp |]; pres_go;
        try (apply Hs; lia).
    + intros index. apply pres_bind; [| intros; pres_go].
      pres_go; try (apply pres_mapM; intros; apply pres_lift).
  - apply pres_raise.
  - unfold handle_container. apply pres_bind; [apply pres_mapM; intros x Hx; apply Hs; pose proof (size_in _ _ Hx); lia | intros; apply pres_ret].
  - unfold handle_container. apply pres_bind; [apply pres_mapM; intros x Hx; apply Hs; pose proof (size_in _ _ Hx); lia | intros; apply pres_ret].
  - unfold handle_container. apply pres_bind; [apply pres_mapM; intros x Hx; apply Hs; pose proof (size_in _ _ Hx); lia | intros; pres_go].
  - unfold handle_container. apply pres_bind.
    + apply pres_mapM. intros [x |] Hx; [apply Hs; pose proof (size_in_opt _ _ Hx); lia | apply pres_raise].
    + intros xs. pres_go. apply pres_mapM; intros x Hx; apply Hs; pose proof (size_in _ _ Hx); lia.
  - unfold handle_unary. pres_go. apply Hs; lia.
  - unfold handle_binop. pres_go; apply Hs; lia.
  - unfold handle_boolop. destruct values as [| v0 rest]; [apply pres_raise |].
    apply pres_bind; [apply Hs; simpl; lia | intros x0].
    apply pres_bind; [apply pres_lift | intros left].
    apply pres_boolop_loop. intros x Hx. apply Hs. pose proof (size_in _ _ Hx). simpl. lia.
  - apply pres_raise.
  - apply pres_raise.
  - apply pres_raise.
Qed.


Lemma getitem_hit : forall heap names bo node st result,
  cache_lookup (cache st) (e_id node) = Some result ->
  getitem heap names bo node st =
  (if is_CannotEval result then (Exc CannotEval, st) else (Ok result, st)).
Proof. intros heap names bo [i l c k] st result H. cbn [getitem]. rewrite H. reflexivity. Qed.

Lemma expr_size_pos : forall e, (1 <= expr_size e)%nat.
Proof. intros [i l c k]. simpl. lia. Qed.

Lemma getitem_pres : forall heap names bo node, pres (getitem heap names bo node).
Proof.
  intros heap names bo node.
  remember (expr_size node) as n eqn:En. assert (Hle : (expr_size node <= n)%nat) by lia. clear En.
  revert node Hle. induction n as [| n IH]; intros node Hle.
  - pose proof (expr_size_pos node). lia.
  - intros st r st' H.
    destruct (cache_lookup (cache st) (e_id node)) as [result |] eqn:E.
    + rewrite (getitem_hit _ _ _ _ _ _ E) in H.
      destruct (is_CannotEval result); injection H as _ <-; apply mono_refl.
    + rewrite (getitem_miss _ _ _ _ _ E) in H.
      destruct (handle _ _ _ _ _ _) as [r0 st0] eqn:Eh.
      assert (Hm : mono (note_handled st (e_id node)) st0).
      { eapply handle_pres; [| exact Eh]. intros e He. apply IH. lia. }
      assert (Hm' : mono st st0) by (intros j w Hj; apply Hm; exact Hj).
      assert (Hst : forall v, mono st (store st0 (e_id node) v)).
      { intros v j w Hj. unfold store; simpl. rewrite cache_set_other; [apply Hm'; exact Hj |].
        intros ->. congruence. }
      destruct r0 as [a | [] ]; injection H as _ <-; first [apply Hst | exact Hm'].
Qed.

Lemma getitem_stored : forall heap names bo node st r st',
  getitem heap names bo node st = (r, st') ->
  (forall v, r = Ok v -> cache_lookup (cache st') (e_id node) = Some v)
  /\ (r = Exc CannotEval -> cache_lookup (cache st') (e_id node) = Some cannot_eval_marker).
Proof.
  intros heap names bo node st r st' H.
  destruct (cache_lookup (cache st) (e_id node)) as [result |] eqn:E.
  - rewrite (getitem_hit _ _ _ _ _ _ E) in H.
    destruct (is_CannotEval result) eqn:Ec; injection H as <- <-; split; intros; try discriminate.
    + destruct result as [| | | | | | | | | | | | | | | | [| |] | |]; try discriminate Ec. exact E.
    + congruence.
  - rewrite (getitem_miss _ _ _ _ _ E) in H.
    destruct (handle _ _ _ _ _ _) as [r0 st0] eqn:Eh.
    destruct r0 as [a | [] ]; injection H as <- <-; split; intros; try discriminate;
      unfold store; simpl; try (injection H as <-); apply cache_set_same.
Qed.

Lemma find_in_pres : forall heap names bo ns, pres (find_in heap names bo ns).
Proof.
  induction ns as [| [e | kw] ns IH]; simpl.
  - apply pres_ret.
  - intros st r st' H.
    destruct (getitem heap names bo e st) as [[v | x] st1] eqn:E.
    + destruct (find_in heap names bo ns st1) as [[ps | x] st2] eqn:E2;
        injection H as _ <-; (eapply mono_trans; [eapply getitem_pres; exact E | eapply IH; exact E2]).
    + pose proof (getitem_pres _ _ _ _ _ _ _ E) as Hm.
      destruct x; try (injection H as _ <-; exact Hm).
      eapply mono_trans; [exact Hm | eapply IH; exact H].
  - exact IH.
Qed.

Lemma find_in_again : forall heap names bo ns st ps st',
  find_in heap names bo ns st = (Ok ps, st') ->
  Forall (fun p => is_CannotEval (snd p) = false) ps ->
  forall stF, mono st' stF -> find_in heap names bo ns stF = (Ok ps, stF).
Proof.
  induction ns as [| [e | kw] ns IH]; intros st ps st' H Hps stF Hm; simpl in *.
  - injection H as <- _. reflexivity.
  - destruct (getitem heap names bo e st) as [[v | x] st1] eqn:E.
    + destruct (find_in heap names bo ns st1) as [[ps' | x] st2] eqn:E2; [| discriminate H].
      injection H as <- <-. inversion Hps as [| p0 ps0 Hv Hps']; subst. simpl in Hv.
      destruct (getitem_stored _ _ _ _ _ _ _ E) as [Hs _].
      assert (Hl : cache_lookup (cache stF) (e_id e) = Some v).
      { apply Hm. eapply find_in_pres; [exact E2 |]. apply Hs. reflexivity. }
      rewrite (getitem_hit _ _ _ _ _ _ Hl), Hv.
      rewrite (IH _ _ _ E2 Hps' stF Hm). reflexivity.
    + destruct x; try discriminate H.
      destruct (getitem_stored _ _ _ _ _ _ _ E) as [_ Hs].
      assert (Hl : cache_lookup (cache stF) (e_id e) = Some cannot_eval_marker).
      { apply Hm. eapply find_in_pres; [exact H |]. apply Hs. reflexivity. }
      rewrite (getitem_hit _ _ _ _ _ _ Hl). simpl.
      exact (IH _ _ _ H Hps stF Hm).
  - exact (IH _ _ _ H Hps stF Hm).
Qed.

Lemma oc_ret : forall A (a : A), only_ce (ret a).
Proof. unfold only_ce, ret. intros A a st r st' H e He. injection H as <- _. discriminate He. Qed.

Lemma oc_raise : forall A, only_ce (@raise A CannotEval).
Proof. unfold only_ce, raise. intros A st r st' H e He. injection H as <- _. congruence. Qed.

Lemma oc_lift : forall A (r : outcome A), (forall e, r = Exc e -> e = CannotEval) -> only_ce (lift r).
Proof. unfold only_ce, lift. intros A r0 Hr st r st' H. injection H as <- _. exact Hr. Qed.

Lemma oc_of_type : forall heap x types, only_ce (lift (of_type heap x types)).
Proof.
  intros heap x types. apply oc_lift. unfold of_type. intros e.
  destruct (is_any _ _); congruence.
Qed.

Lemma oc_bind : forall A B (c : M A) (f : A -> M B),
  only_ce c -> (forall a, only_ce (f a)) -> only_ce (bind c f).
Proof.
  unfold only_ce, bind. intros A B c f Hc Hf st r st' H e He.
  destruct (c st) as [[a | e'] st1] eqn:E.
  - eapply Hf; [exact H | exact He].
  - injection H as <- _. eapply Hc; [exact E | congruence].
Qed.

Lemma oc_mapM : forall A B (f : A -> M B) xs,
  (forall x, In x xs -> only_ce (f x)) -> only_ce (mapM f xs).
Proof.
  induction xs as [| x xs IH]; intros H; simpl.
  - apply oc_ret.
  - apply oc_bind; [apply H; left; reflexivity | intros y].
    apply oc_bind; [apply IH; intros x' Hx'; apply H; right; exact Hx' | intros ys].
    apply oc_ret.
Qed.

Lemma oc_boolop_loop : forall heap self op left rest,
  (forall x, In x rest -> only_ce (self x)) -> only_ce (boolop_loop heap self op left rest).
Proof.
  intros heap self op left rest. revert left.
  induction rest as [| r rest IH]; intros left H; simpl.
  - apply oc_ret.
  - apply oc_bind; [| intros a; apply IH; intros x Hx; apply H; right; exact Hx].
    assert (Hr : only_ce (self r)) by (apply H; left; reflexivity).
    destruct op, (truthy left);
      first [apply oc_ret | apply oc_bind; [exact Hr | intros; apply oc_of_type]].
Qed.

Lemma forallb_safe_hashable : forall heap xs,
  forallb (safe_hash_key heap) xs = true -> forallb hashable xs = true.
Proof.
  intros heap xs H. apply forallb_forall. intros x Hx.
  apply (safe_hash_key_hashable heap). exact (proj1 (forallb_forall _ _) H x Hx).
Qed.

Ltac oc_go :=
  repeat match goal with
  | |- only_ce (ret _) => apply oc_ret
  | |- only_ce (raise CannotEval) => apply oc_raise
  | |- only_ce (lift (of_type _ _ _)) => apply oc_of_type
  | |- only_ce (bind _ _) => apply oc_bind; [| intros ?]
  | |- only_ce (if ?b then _ else _) => destruct b eqn:?
  | |- only_ce (match ?x with _ => _ end) => destruct x
  end.

Lemma handle_oc : forall heap names bo self node,
  plain_expr node = true ->
  (forall e, (expr_size e < expr_size node)%nat -> plain_expr e = true -> only_ce (self e)) ->
  only_ce (handle heap names bo self node).
Proof.
  intros heap names bo self [i l c k] Hp Hs. unfold handle.
  destruct (literal_eval _); [apply oc_ret |].
  destruct k; simpl in Hs, Hp; try discriminate Hp.
  - apply oc_raise.
  - unfold lookup_name. destruct (assoc_str _ _); [apply oc_ret | apply oc_raise].
  - apply oc_raise.
  - unfold handle_container. apply oc_bind; [| intros; apply oc_ret].
    apply oc_mapM; intros x Hx; apply Hs; [pose proof (size_in _ _ Hx); lia |].
    exact (proj1 (forallb_forall _ _) Hp x Hx).
  - unfold handle_container. apply oc_bind; [| intros; apply oc_ret].
    apply oc_mapM; intros x Hx; apply Hs; [pose proof (size_in _ _ Hx); lia |].
    exact (proj1 (forallb_forall _ _) Hp x Hx).
  - unfold handle_container. apply oc_bind.
    + apply oc_mapM; intros x Hx; apply Hs; [pose proof (size_in _ _ Hx); lia |].
      exact (proj1 (forallb_forall _ _) Hp x Hx).
    + intros xs. destruct (forallb (safe_hash_key heap) xs) eqn:Ef; simpl; [| apply oc_raise].
      apply oc_lift. unfold build_set. rewrite (forallb_safe_hashable _ _ Ef). discriminate.
  - unfold handle_container. apply andb_true_iff in Hp as [Hk Hv]. apply oc_bind.
    + apply oc_mapM. intros [x |] Hx.
      * apply Hs; [pose proof (size_in_opt _ _ Hx); lia |].
        exact (proj1 (forallb_forall _ _) Hk _ Hx).
      * pose proof (proj1 (forallb_forall _ _) Hk _ Hx). discriminate.
    + intros xs. destruct (negb _); [apply oc_raise |].
      apply oc_bind; [| intros; apply oc_ret].
      apply oc_mapM; intros x Hx; apply Hs; [pose proof (size_in _ _ Hx); lia |].
      exact (proj1 (forallb_forall _ _) Hv x Hx).
  - unfold handle_unary. oc_go. apply Hs; [lia | exact Hp].
  - unfold handle_binop. apply andb_true_iff in Hp as [Hl Hr]. oc_go;
      apply Hs; first [lia | assumption].
  - unfold handle_boolop. destruct values as [| v0 rest]; [discriminate Hp |].
    simpl in Hp. apply andb_true_iff in Hp as [H0 Hrest].
    apply oc_bind; [apply Hs; [simpl; lia | exact H0] | intros x0].
    apply oc_bind; [apply oc_of_type | intros left].
    apply oc_boolop_loop. intros x Hx. apply Hs.
    + pose proof (size_in _ _ Hx). simpl. lia.
    + exact (proj1 (forallb_forall _ _) Hrest x Hx).
  - apply oc_raise.
  - apply oc_raise.
  - apply oc_raise.
Qed.

Lemma getitem_oc : forall heap names bo node,
  plain_expr node = true -> only_ce (getitem heap names bo node).
Proof.
  intros heap names bo node.
  remember (expr_size node) as n eqn:En. assert (Hle : (expr_size node <= n)%nat) by lia. clear En.
  revert node Hle. induction n as [| n IH]; intros node Hle Hp.
  - pose proof (expr_size_pos node). lia.
  - intros st r st' H e He. subst r.
    destruct (cache_lookup (cache st) (e_id node)) as [result |] eqn:E.
    + rewrite (getitem_hit _ _ _ _ _ _ E) in H.
      destruct (is_CannotEval result); injection H as H _; congruence.
    + rewrite (getitem_miss _ _ _ _ _ E) in H.
      destruct (handle _ _ _ _ _ _) as [r0 st0] eqn:Eh.
      destruct r0 as [a | [] ]; injection H as H _; try discriminate H; try congruence.
      all: subst; eapply (handle_oc heap names bo _ node Hp); [| exact Eh | reflexivity];
           intros e' He' Hp'; apply IH; [lia | exact Hp'].
Qed.

(** *** The further properties *)
(** X1: [__getitem__] never changes or removes an entry of the memo cache:
    every entry present before a call is still there, with the same value,
    after it, whatever the outcome of the call. *)
Theorem X_memo_entries_kept : forall heap names binary_operator node st r st',
  getitem heap names binary_operator node st = (r, st') ->
  forall i w, cache_lookup (cache st) i = Some w -> cache_lookup (cache st') i = Some w.
Proof. intros heap names binary_operator node st r st' H. exact (getitem_pres _ _ _ _ _ _ _ H). Qed.

Lemma X_memo_entries_kept_witness :
  cache_lookup (cache (snd (getitem demo_heap x_names int_binary_operator x_tree
                                    (mkState [(100%nat, VInt 5)] [])))) 100 = Some (VInt 5).
Proof.
  apply (X_memo_entries_kept demo_heap x_names int_binary_operator x_tree (mkState [(100%nat, VInt 5)] [])
           (fst (getitem demo_heap x_names int_binary_operator x_tree (mkState [(100%nat, VInt 5)] [])))
           _ ltac:(vm_compute; reflexivity) 100 (VInt 5) ltac:(reflexivity)).
Defined.

(** X2: when a call of [__getitem__] ends in a value that is not the
    [CannotEval] class, or in [CannotEval], a second call on the same node
    answers the same outcome from the cache and leaves the state unchanged. *)
Theorem X_memo_repeat : forall heap names binary_operator node st r st',
  getitem heap names binary_operator node st = (r, st') ->
  (r = Exc CannotEval \/ exists v, r = Ok v /\ is_CannotEval v = false) ->
  getitem heap names binary_operator node st' = (r, st').
Proof.
  intros heap names binary_operator node st r st' H Hr.
  destruct (getitem_stored _ _ _ _ _ _ _ H) as [Hok Hce].
  destruct Hr as [-> | [v [-> Hv]]].
  - rewrite (getitem_hit _ _ _ _ _ _ (Hce eq_refl)). reflexivity.
  - rewrite (getitem_hit _ _ _ _ _ _ (Hok v eq_refl)), Hv. reflexivity.
Qed.

Lemma X_memo_repeat_witness :
  getitem demo_heap x_names int_binary_operator x_tree
    (snd (getitem demo_heap x_names int_binary_operator x_tree empty_state))
  = (Ok (VInt 3), snd (getitem demo_heap x_names int_binary_operator x_tree empty_state)).
Proof.
  apply (X_memo_repeat demo_heap x_names int_binary_operator x_tree empty_state (Ok (VInt 3))
           _ ltac:(vm_compute; reflexivity)).
  right. exists (VInt 3). split; reflexivity.
Defined.

(** X3: running [find_expressions] again on the state a successful run left
    gives the same pairs and the same state, when no yielded value is the
    [CannotEval] class. *)
Theorem X_find_expressions_rerun : forall heap names binary_operator root st ps st',
  find_expressions heap names binary_operator root st = (Ok ps, st') ->
  Forall (fun p => is_CannotEval (snd p) = false) ps ->
  find_expressions heap names binary_operator root st' = (Ok ps, st').
Proof.
  unfold find_expressions. intros heap names binary_operator root st ps st' H Hps.
  exact (find_in_again _ _ _ _ _ _ _ H Hps st' (mono_refl st')).
Qed.

Lemma X_find_expressions_rerun_witness :
  find_expressions demo_heap x_names int_binary_operator x_tree
    (snd (find_expressions demo_heap x_names int_binary_operator x_tree empty_state))
  = (Ok x_found, snd (find_expressions demo_heap x_names int_binary_operator x_tree empty_state)).
Proof.
  apply (X_find_expressions_rerun demo_heap x_names int_binary_operator x_tree empty_state x_found
           _ ltac:(vm_compute; reflexivity)).
  vm_compute. repeat constructor.
Defined.

(** X4: a tree without attributes, subscripts, [**] entries or empty [BoolOp]s
    ([plain_expr]) can fail to evaluate only with [CannotEval]. *)
Theorem X_plain_only_cannot_eval : forall heap names binary_operator node st e,
  plain_expr node = true ->
  fst (getitem heap names binary_operator node st) = Exc e -> e = CannotEval.
Proof.
  intros heap names binary_operator node st e Hp H.
  destruct (getitem heap names binary_operator node st) as [r st'] eqn:E. simpl in H.
  exact (getitem_oc _ _ _ _ Hp _ _ _ E e H).
Qed.

Lemma X_plain_only_cannot_eval_witness :
  fst (getitem demo_heap [("x", VStr "a")] int_binary_operator plain_tree empty_state) = Exc CannotEval
  /\ CannotEval = CannotEval.
Proof.
  split; [vm_compute; reflexivity |].
  apply (X_plain_only_cannot_eval demo_heap [("x", VStr "a")] int_binary_operator plain_tree empty_state
           CannotEval ltac:(vm_compute; reflexivity) ltac:(vm_compute; reflexivity)).
Defined.

(** X5: a node that [ast.literal_eval] accepts is evaluated by [literal_eval]
    alone: none of its children is evaluated, and only the node itself is
    recorded and cached. *)
Theorem X_literal_node : forall heap names binary_operator node st v,
  cache_lookup (cache st) (e_id node) = None ->
  literal_eval node = Ok v ->
  getitem heap names binary_operator node st
  = (Ok v, store (note_handled st (e_id node)) (e_id node) v).
Proof.
  intros heap names binary_operator node st v Hm Hl.
  rewrite (getitem_miss _ _ _ _ _ Hm). unfold handle. rewrite Hl. reflexivity.
Qed.

Lemma X_literal_node_witness :
  getitem demo_heap [] int_binary_operator
    (node 1 (TupleE [node 2 (Constant (VInt 1) None); node 3 (Constant (VInt 2) None)] Load))
    empty_state
  = (Ok (VTuple [VInt 1; VInt 2]), mkState [(1%nat, VTuple [VInt 1; VInt 2])] [1%nat]).
Proof.
  apply (X_literal_node demo_heap [] int_binary_operator
           (node 1 (TupleE [node 2 (Constant (VInt 1) None); node 3 (Constant (VInt 2) None)] Load))
           empty_state (VTuple [VInt 1; VInt 2]) ltac:(reflexivity) ltac:(vm_compute; reflexivity)).
Defined.

(** X6: [a @ b] is [CannotEval] before its operands are evaluated: only the
    node itself is recorded and cached. *)
Theorem X_matmul_not_evaluated : forall heap names binary_operator st i ln c l r,
  cache_lookup (cache st) i = None ->
  getitem heap names binary_operator (mkE i ln c (BinOp l MatMult r)) st
  = (Exc CannotEval, store (note_handled st i) i cannot_eval_marker).
Proof.
  intros heap names binary_operator st i ln c l r Hm.
  rewrite (getitem_miss _ _ _ (mkE i ln c (BinOp l MatMult r)) _ Hm). reflexivity.
Qed.

Lemma X_matmul_not_evaluated_witness :
  getitem demo_heap or_names int_binary_operator matmul_ab empty_state
  = (Exc CannotEval, mkState [(1%nat, cannot_eval_marker)] [1%nat]).
Proof.
  apply (X_matmul_not_evaluated demo_heap or_names int_binary_operator empty_state 1 1 0
           (node 2 (Name "a" Load)) (node 3 (Name "b" Load)) ltac:(reflexivity)).
Defined.

Lemma is_any_two : forall x a b, is_any x [a; b] = true -> x = a \/ x = b.
Proof.
  intros x a b H. unfold is_any in H. simpl in H. rewrite orb_false_r in H.
  apply orb_true_iff in H as [H | H]; apply oid_eqb_true in H; auto.
Qed.

(** X7: [s % x] with [s] a [str] or [bytes] and [x] a [list] or [tuple] is
    [CannotEval], whatever the operator table would give, once both operands
    have been evaluated. *)
Theorem X_format_guard : forall heap names binary_operator self i ln c l r st st1 st2 a b,
  self l st = (Ok a, st1) -> self r st1 = (Ok b, st2) ->
  is_any (type_of heap a) [T TStr; T TBytes] = true ->
  is_any (type_of heap b) [T TList; T TTuple] = true ->
  handle heap names binary_operator self (mkE i ln c (BinOp l Mod r)) st = (Exc CannotEval, st2).
Proof.
  intros heap names binary_operator self i ln c l r st st1 st2 a b Hl Hr Ha Hb.
  assert (E : literal_eval (mkE i ln c (BinOp l Mod r)) = Exc ValueError) by reflexivity.
  unfold handle. rewrite E.
  unfold handle_binop, bind, lift, raise. cbn [negb binop_supported].
  rewrite Hl. unfold of_type.
  apply is_any_two in Ha. apply is_any_two in Hb.
  unfold is_any at 1. destruct Ha as [Ha | Ha]; rewrite Ha; simpl; rewrite Hr; simpl;
    destruct Hb as [Hb | Hb]; rewrite Hb; simpl; rewrite Ha, Hb; reflexivity.
Qed.


Lemma X_format_guard_witness :
  handle demo_heap format_names int_binary_operator (getitem demo_heap format_names int_binary_operator)
    (node 1 (BinOp s_name Mod l_name)) empty_state
  = (Exc CannotEval, mkState [(2%nat, VStr "%s"); (3%nat, VList [VInt 1])] [3%nat; 2%nat]).
Proof.
  apply (X_format_guard demo_heap format_names int_binary_operator
           (getitem demo_heap format_names int_binary_operator) 1 1 0 s_name l_name empty_state
           (mkState [(2%nat, VStr "%s")] [2%nat]) _ (VStr "%s") (VList [VInt 1])
           ltac:(vm_compute; reflexivity) ltac:(vm_compute; reflexivity)
           ltac:(vm_compute; reflexivity) ltac:(vm_compute; reflexivity)).
Defined.



(** X9: a value that [safe_hash_key] accepts is hashable, so subscripting a
    dict with it never raises [TypeError]. *)
Theorem X_safe_key_hashable : forall heap k,
  safe_hash_key heap k = true ->
  hashable k = true /\ forall kvs, py_subscript (VDict kvs) k <> Exc TypeError.
Proof.
  intros heap k H. pose proof (safe_hash_key_hashable heap k H) as Hh.
  split; [exact Hh |]. intros kvs. simpl. rewrite Hh.
  destruct (dict_lookup kvs k); discriminate.
Qed.

Lemma X_safe_key_hashable_witness :
  hashable (VTuple [VInt 1; VStr "a"]) = true
  /\ forall kvs, py_subscript (VDict kvs) (VTuple [VInt 1; VStr "a"]) <> Exc TypeError.
Proof. apply (X_safe_key_hashable demo_heap (VTuple [VInt 1; VStr "a"]) ltac:(vm_compute; reflexivity)). Defined.



Lemma resolve_descriptor_on_none : forall heap d,
  resolve_descriptor heap d VNone = Exc TypeError \/ resolve_descriptor heap d VNone = Exc CannotEval.
Proof.
  intros heap d. unfold resolve_descriptor, of_type.
  destruct (is_any (type_of heap d) safe_descriptor_types); simpl; auto.
Qed.

(** X11: [_resolve_descriptor] succeeds only on a member, wrapper or method
    descriptor, bound to an object that is not [None] and is an instance of
    the descriptor's [__objclass__]; a wrapper or method descriptor then gives
    the bound object of that kind. *)
Theorem X_resolve_descriptor_success : forall heap d obj v,
  resolve_descriptor heap d obj = Ok v ->
  exists k c n, d = VDescr k c n /\ k <> DGetSet /\ obj <> VNone
    /\ isinstance heap obj c = true
    /\ (k = DMember \/ v = VBound k obj n).
Proof.
  intros heap d obj v H. unfold resolve_descriptor, of_type in H.
  destruct (is_any (type_of heap d) safe_descriptor_types); simpl in H; [| discriminate].
  unfold builtin_descr_get in H.
  destruct obj; try discriminate H;
  destruct d as [| | | | | | | | | | | | | | | | | [] c n |]; try discriminate H;
  destruct (isinstance heap _ c) eqn:Hi; try discriminate H;
  eexists; exists c, n; repeat split; try discriminate; auto;
  right; congruence.
Qed.

Lemma X_resolve_descriptor_success_witness :
  exists k c n, VDescr DMethod (OB TStr) "startswith" = VDescr k c n /\ k <> DGetSet
    /\ VStr "foo" <> VNone /\ isinstance demo_heap (VStr "foo") c = true
    /\ (k = DMember \/ VBound DMethod (VStr "foo") "startswith" = VBound k (VStr "foo") n).
Proof.
  apply (X_resolve_descriptor_success demo_heap (VDescr DMethod (OB TStr) "startswith") (VStr "foo")
           (VBound DMethod (VStr "foo") "startswith")).
  vm_compute. reflexivity.
Defined.

(** X12: [getattr_static(None, attr)] never returns a value when [NoneType]'s
    MRO gives a class entry whose type has [__get__]: the descriptor's
    [__get__] rejects [None]. *)
Theorem X_none_descriptor_attribute : forall heap attr kr g,
  check_class heap (OB TNoneType) attr = Ok (Some kr) ->
  check_class heap (type_of heap kr) "__get__" = Ok (Some g) ->
  forall v, getattr_static heap VNone attr <> Ok v.
Proof.
  intros heap attr kr g Hk Hg v.
  unfold getattr_static, getattr_instance_result.
  change (is_type heap VNone) with false. cbv iota.
  change (getattr_klass heap VNone) with (OB TNoneType).
  destruct (shadowed_dict heap (OB TNoneType)) as [[da |] | e]; simpl; [| | discriminate].
  - destruct (oid_eqb (type_of heap da) (OB TMemberDescriptor)); simpl;
      rewrite Hk; simpl; rewrite Hg; simpl;
      destruct (resolve_descriptor_on_none heap kr) as [E | E]; rewrite E; discriminate.
  - rewrite Hk; simpl; rewrite Hg; simpl;
      destruct (resolve_descriptor_on_none heap kr) as [E | E]; rewrite E; discriminate.
Qed.

Lemma X_none_descriptor_attribute_witness :
  (forall v, getattr_static demo_heap VNone "__repr__" <> Ok v)
  /\ fst (getitem demo_heap [] int_binary_operator none_repr empty_state) = Exc TypeError.
Proof.
  split; [| vm_compute; reflexivity].
  apply (X_none_descriptor_attribute demo_heap "__repr__" (VDescr DWrapper (OB TNoneType) "__repr__")
           (VDescr DWrapper (OB TWrapperDescriptor) "__get__")); vm_compute; reflexivity.
Defined.

Lemma map_copy_fix : forall xs,
  Forall (fun x => copy_ast_without_context (copy_ast_without_context x) = copy_ast_without_context x) xs ->
  map copy_ast_without_context (map copy_ast_without_context xs) = map copy_ast_without_context xs.
Proof. induction 1 as [| x xs Hx _ IH]; simpl; [reflexivity | rewrite Hx, IH; reflexivity]. Qed.

Lemma opt_copy_fix : forall o,
  OptP (fun x => copy_ast_without_context (copy_ast_without_context x) = copy_ast_without_context x) o ->
  option_map copy_ast_without_context (option_map copy_ast_without_context o)
  = option_map copy_ast_without_context o.
Proof. intros [x |] H; simpl in *; [rewrite H |]; reflexivity. Qed.

(** X13: copying a copy made by [copy_ast_without_context] changes nothing. *)
Theorem X_copy_idempotent : forall e,
  copy_ast_without_context (copy_ast_without_context e) = copy_ast_without_context e.
Proof.
  apply (expr_nested_ind
    (fun e => copy_ast_without_context (copy_ast_without_context e) = copy_ast_without_context e));
  [ intros i l c v k | intros i l c x ctx | intros i l c v an ctx IHv
  | intros i l c v s ctx IHv IHs | intros i l c lo up st Hlo Hup Hst
  | intros i l c xs ctx Hxs | intros i l c xs ctx Hxs | intros i l c xs Hxs
  | intros i l c ks vs Hks Hvs | intros i l c o x IHx | intros i l c x o y IHx IHy
  | intros i l c o xs Hxs | intros i l c f args kws IHf Hargs Hkws
  | intros i l c v ctx IHv | intros i l c t xs Hxs ]; simpl;
  try rewrite ?IHv, ?IHs, ?IHx, ?IHy, ?IHf, ?(map_copy_fix _ Hxs); try reflexivity.
  - rewrite (opt_copy_fix _ Hlo), (opt_copy_fix _ Hup), (opt_copy_fix _ Hst). reflexivity.
  - rewrite (map_copy_fix _ Hvs). f_equal. f_equal.
    induction Hks as [| o os Ho _ IH]; simpl; [reflexivity | rewrite (opt_copy_fix _ Ho), IH; reflexivity].
  - rewrite (map_copy_fix _ Hargs). f_equal. f_equal.
    induction Hkws as [| [a v] kws Hk _ IH]; simpl in *; [reflexivity | rewrite Hk, IH; reflexivity].
Qed.


Lemma setdefault_append_nodes : forall res k n v,
  Permutation (group_nodes (setdefault_append res k n v)) (group_nodes res ++ [n])%list.
Proof.
  unfold group_nodes.
  induction res as [| [k' [ns v']] res IH]; intros k n v; simpl; [reflexivity |].
  destruct (expr_eq_dec k k'); simpl.
  - rewrite <- !app_assoc. apply Permutation_app_head. apply Permutation_app_comm.
  - rewrite <- !app_assoc. apply Permutation_app_head. apply IH.
Qed.

Lemma group_fold_nodes : forall ps res,
  Permutation
    (group_nodes (fold_left (fun res p => setdefault_append res (dump_key (fst p)) (fst p) (snd p)) ps res))
    (group_nodes res ++ map fst ps)%list.
Proof.
  induction ps as [| p ps IH]; intros res; simpl.
  - rewrite app_nil_r. reflexivity.
  - rewrite IH. rewrite setdefault_append_nodes. rewrite <- app_assoc. reflexivity.
Qed.

(** X14: the groups of [group_expressions] together hold exactly the given
    nodes: each node lands in exactly one group, none is lost or repeated. *)
Theorem X_group_permutation : forall ps,
  Permutation (List.concat (map fst (group_expressions ps))) (map fst ps).
Proof.
  intros ps. unfold group_expressions, group_dict.
  rewrite map_map. change (List.concat (map (fun x => fst (snd x)) (fold_left (fun res p => setdefault_append res (dump_key (fst p)) (fst p) (snd p)) ps [])))
    with (group_nodes (fold_left (fun res p => setdefault_append res (dump_key (fst p)) (fst p) (snd p)) ps [])).
  rewrite group_fold_nodes. reflexivity.
Qed.

Section InterestingProps.
Variable heap : pyheap.
Variable snt tat : list oid.
Variable topt tun : oid.
Variable dn : pyval -> outcome pyval.
Variable gon : pyval -> string -> outcome pyval.
Variable bis : string -> pyval -> bool.
Variable names : list (string * pyval).
Variable bo : binop -> pyval -> pyval -> outcome pyval.


Lemma find_interesting_filter : forall ns st ps st',
  find_in heap names bo ns st = (Ok ps, st') ->
  match ofilter (interesting_pair heap snt tat topt tun dn gon bis) ps with
  | Ok qs => find_interesting heap snt tat topt tun dn gon bis names bo ns st = (Ok qs, st')
  | Exc e => fst (find_interesting heap snt tat topt tun dn gon bis names bo ns st) = Exc e
  end.
Proof.
  induction ns as [| [e | kw] ns IH]; intros st ps st' H; simpl in H |- *.
  - unfold ret in H. injection H as <- <-. reflexivity.
  - destruct (getitem heap names bo e st) as [[v | x] st1] eqn:Eg.
    + destruct (find_in heap names bo ns st1) as [[ps' | x] st2] eqn:Ef; [| discriminate H].
      injection H as <- <-. simpl. unfold interesting_pair at 1. simpl.
      destruct (is_expression_interesting heap snt tat topt tun dn gon bis e v) as [[|] | x] eqn:Ei;
        simpl; [| | reflexivity].
      * specialize (IH st1 ps' st2 Ef).
        destruct (ofilter (interesting_pair heap snt tat topt tun dn gon bis) ps') as [qs | x]; simpl.
        -- rewrite IH. reflexivity.
        -- destruct (find_interesting heap snt tat topt tun dn gon bis names bo ns st1) as [[qs | y] st3];
             simpl in IH |- *; congruence.
      * specialize (IH st1 ps' st2 Ef).
        destruct (ofilter (interesting_pair heap snt tat topt tun dn gon bis) ps') as [qs | x]; simpl; exact IH.
    + destruct x; try discriminate H. exact (IH st1 ps st' H).
  - exact (IH st ps st' H).
Qed.



End InterestingProps.


(** X15: after a successful [find_expressions],
    [interesting_expressions_grouped] groups exactly the pairs that
    [is_expression_interesting] keeps, in order, and ends in the same state;
    if the test raises, the first such exception is raised. *)
Theorem X_interesting_grouped_compose :
  forall heap snt tat topt tun dn gon bis names bo root st ps st',
  find_expressions heap names bo root st = (Ok ps, st') ->
  match ofilter (interesting_pair heap snt tat topt tun dn gon bis) ps with
  | Ok qs => interesting_expressions_grouped heap snt tat topt tun dn gon bis names bo root st
             = (Ok (group_expressions qs), st')
  | Exc e => fst (interesting_expressions_grouped heap snt tat topt tun dn gon bis names bo root st)
             = Exc e
  end.
Proof.
  intros heap snt tat topt tun dn gon bis names bo root st ps st' H.
  pose proof (find_interesting_filter heap snt tat topt tun dn gon bis names bo (walk root) st ps st' H) as F.
  unfold interesting_expressions_grouped, bind, ret.
  destruct (ofilter _ ps) as [qs | e].
  - rewrite F. reflexivity.
  - destruct (find_interesting heap snt tat topt tun dn gon bis names bo (walk root) st) as [[qs | x] st2];
      simpl in F |- *; congruence.
Qed.







Lemma X_interesting_grouped_compose_witness :
  match ofilter (interesting_pair demo_heap demo_safe_name_types [] (OU 50) (OU 51) demo_dunder_name
                   demo_getattr_or_none demo_builtin_is) x_found with
  | Ok qs => interesting_expressions_grouped demo_heap demo_safe_name_types [] (OU 50) (OU 51)
               demo_dunder_name demo_getattr_or_none demo_builtin_is x_names int_binary_operator x_tree
               empty_state
             = (Ok (group_expressions qs),
                snd (find_expressions demo_heap x_names int_binary_operator x_tree empty_state))
  | Exc e => fst (interesting_expressions_grouped demo_heap demo_safe_name_types [] (OU 50) (OU 51)
                    demo_dunder_name demo_getattr_or_none demo_builtin_is x_names int_binary_operator
                    x_tree empty_state) = Exc e
  end.
Proof.
  apply (X_interesting_grouped_compose demo_heap demo_safe_name_types [] (OU 50) (OU 51) demo_dunder_name
           demo_getattr_or_none demo_builtin_is x_names int_binary_operator x_tree empty_state x_found
           (snd (find_expressions demo_heap x_names int_binary_operator x_tree empty_state))).
  vm_compute. reflexivity.
Defined.

















Lemma assoc_str_app : forall {A} k (l1 l2 : list (string * A)),
  assoc_str k (l1 ++ l2)%list = match assoc_str k l1 with Some v => Some v | None => assoc_str k l2 end.
Proof.
  intros A k l1 l2. induction l1 as [| [k' v] l1 IH]; simpl; [reflexivity |].
  destruct (String.eqb k k'); [reflexivity | exact IH].
Qed.

(** X19: with the names of [Evaluator.from_frame], a name is looked up in the
    frame's locals, then its globals, then its builtins; a name in none of
    them is [CannotEval]. *)
Theorem X_from_frame_lookup : forall f_locals f_globals f_builtins id st,
  lookup_name (from_frame f_locals f_globals f_builtins) id st =
  (match assoc_str id f_locals with
   | Some v => Ok v
   | None => match assoc_str id f_globals with
             | Some v => Ok v
             | None => match assoc_str id f_builtins with
                       | Some v => Ok v
                       | None => Exc CannotEval
                       end
             end
   end, st).
Proof.
  intros. unfold lookup_name, from_frame. rewrite !assoc_str_app.
  destruct (assoc_str id f_locals); [reflexivity |].
  destruct (assoc_str id f_globals); [reflexivity |].
  destruct (assoc_str id f_builtins); reflexivity.
Qed.
